(** * qutebrowser.keyinput.modes: the ModeManager

    A shallow embedding of [ModeManager] (the handler registry, the mode
    stack, [enter] / [leave] and the key event filter) together with the
    properties of it that the specification states.

    Python objects are modelled as follows.
    - A mode is the [str] that names it.
    - A handler is the callable bound to a mode; the manager only uses the
      truth value it returns for an event, so a handler is a function from
      events to [bool]: it returns, and it does not call back into the
      manager.  A mode may be registered with [None] in place of a handler.
    - [self._handlers] is a [dict], modelled as a [gmap]; [self.passthrough],
      [self._mode_stack] and [self._releaseevents_to_pass] are Python lists,
      modelled as lists (order and duplicates are kept).
    - A method is a computation in a state-and-exception monad over the
      fields of [self]: an exception leaves the fields as they were when it
      was raised.
    - The signals [entered], [left] and [key_pressed] are recorded, in order
      of emission, in the field [emitted].
    - [logging.debug] calls have no effect on the manager and are left out. *)

From stdpp Require Import gmap strings list.

(** ** Data *)

Abbreviation Mode := string.

(** [QEvent.Type], as far as the filter tells event types apart. *)
Inductive QEventType :=
  | KeyPress
  | KeyRelease
  | OtherEventType (code : nat).

(** An event as the filter receives it.  [QKeyEvent] defines no [__eq__], so
    [==], [!=] and [in] on events compare the identity of the event object:
    [evt_id] is that identity, [evt_type] is what [evt.type()] returns when
    the event is delivered. *)
Record QKeyEvent := mkEvent { evt_id : nat; evt_type : QEventType }.

(** The object an event is delivered for; the filter only asks
    [isinstance(obj, QWindow)]. *)
Inductive QObject :=
  | QWindow
  | OtherObject (cls : string).

Definition isinstance_QWindow (obj : QObject) : bool :=
  match obj with QWindow => true | OtherObject _ => false end.

Abbreviation Handler := (QKeyEvent → bool).

Inductive Signal :=
  | sig_entered (mode : Mode)
  | sig_left (mode : Mode)
  | sig_key_pressed (evt : QKeyEvent).

Inductive exn :=
  | ValueError (msg : string)
  | KeyError (key : Mode).

Record ModeManager := mkModeManager {
  _handlers : gmap Mode (option Handler);
  passthrough : list Mode;
  _mode_stack : list Mode;
  _releaseevents_to_pass : list nat;
  _forward_unbound_keys : bool;
  emitted : list Signal
}.

(** ** The monad of methods *)

Inductive outcome (A : Type) :=
  | Return (a : A)
  | Raise (e : exn).
Arguments Return {A} a.
Arguments Raise {A} e.

Definition M (A : Type) : Type := ModeManager → outcome A * ModeManager.

#[global] Instance M_ret : MRet M := λ A a self, (Return a, self).
#[global] Instance M_bind : MBind M := λ A B f c self,
  match c self with
  | (Return a, self') => f a self'
  | (Raise e, self') => (Raise e, self')
  end.

Definition raise {A} (e : exn) : M A := λ self, (Raise e, self).
Definition get : M ModeManager := λ self, (Return self, self).
Definition modify (f : ModeManager → ModeManager) : M unit :=
  λ self, (Return tt, f self).

(** [try: c  except ValueError: pass] *)
Definition try_except_ValueError (c : M unit) : M unit := λ self,
  match c self with
  | (Raise (ValueError _), self') => (Return tt, self')
  | r => r
  end.

Definition emit (sig : Signal) : M unit :=
  modify (λ self, mkModeManager (_handlers self) (passthrough self)
    (_mode_stack self) (_releaseevents_to_pass self)
    (_forward_unbound_keys self) (emitted self ++ [sig])).

(** ** Field updates *)

Definition set_handlers (f : gmap Mode (option Handler) → gmap Mode (option Handler))
    (self : ModeManager) : ModeManager :=
  mkModeManager (f (_handlers self)) (passthrough self) (_mode_stack self)
    (_releaseevents_to_pass self) (_forward_unbound_keys self) (emitted self).

Definition set_passthrough (f : list Mode → list Mode)
    (self : ModeManager) : ModeManager :=
  mkModeManager (_handlers self) (f (passthrough self)) (_mode_stack self)
    (_releaseevents_to_pass self) (_forward_unbound_keys self) (emitted self).

Definition set_mode_stack (f : list Mode → list Mode)
    (self : ModeManager) : ModeManager :=
  mkModeManager (_handlers self) (passthrough self) (f (_mode_stack self))
    (_releaseevents_to_pass self) (_forward_unbound_keys self) (emitted self).

Definition set_releaseevents_to_pass (f : list nat → list nat)
    (self : ModeManager) : ModeManager :=
  mkModeManager (_handlers self) (passthrough self) (_mode_stack self)
    (f (_releaseevents_to_pass self)) (_forward_unbound_keys self) (emitted self).

Definition set_forward_unbound_keys (b : bool)
    (self : ModeManager) : ModeManager :=
  mkModeManager (_handlers self) (passthrough self) (_mode_stack self)
    (_releaseevents_to_pass self) b (emitted self).

(** ** Python list operations *)

(** [l.remove(x)]: drops the first element equal to [x]; [None] stands for
    the [ValueError] Python raises when there is none. *)
Fixpoint list_remove (x : Mode) (l : list Mode) : option (list Mode) :=
  match l with
  | [] => None
  | y :: l' =>
      if bool_decide (y = x) then Some l'
      else match list_remove x l' with
           | Some r => Some (y :: r)
           | None => None
           end
  end.

(** ** ModeManager *)

(** The configuration is read through [config.get(section, option)]; only
    the boolean option general/forward_unbound_keys is ever asked for. *)
Definition Config : Type := string → string → bool.

Definition __init__ (config : Config) : ModeManager :=
  mkModeManager ∅ [] [] [] (config "general" "forward_unbound_keys") [].

(** The read-only property [mode]. *)
Definition mode (self : ModeManager) : option Mode := last (_mode_stack self).

Definition register (mode : Mode) (handler : option Handler) (passthrough : bool)
    : M unit :=
  modify (set_handlers (λ h, <[mode := handler]> h));;
  if passthrough then modify (set_passthrough (λ p, p ++ [mode]))
  else mret tt.

Definition enter (mode : Mode) : M unit :=
  self ← get;
  match _handlers self !! mode with
  | None => raise (ValueError ("No handler for mode " +:+ mode))
  | Some _ =>
      if bool_decide (last (_mode_stack self) = Some mode) then mret tt
      else
        modify (set_mode_stack (λ st, st ++ [mode]));;
        emit (sig_entered mode)
  end.

Definition leave (mode : Mode) : M unit :=
  self ← get;
  match list_remove mode (_mode_stack self) with
  | None => raise (ValueError ("Mode " +:+ mode +:+ " not on mode stack!"))
  | Some st =>
      modify (set_mode_stack (λ _, st));;
      emit (sig_left mode)
  end.

(** [self.leave(None)]: a stack of mode names holds no [None], so
    [list.remove] raises and [leave] re-raises with [None] formatted. *)
Definition leave_None : M unit :=
  raise (ValueError "Mode None not on mode stack!").

Definition leave_current_mode : M unit :=
  self ← get;
  match mode self with
  | Some m =>
      if bool_decide (m = "normal") then raise (ValueError "Can't leave normal mode!")
      else leave m
  | None => leave_None
  end.

(** The module-level [maybe_leave]. *)
Definition maybe_leave (mode : Mode) : M unit :=
  try_except_ValueError (leave mode).

Definition on_config_changed (config : Config) (section option : string) : M unit :=
  if bool_decide ((section, option) = ("general", "forward_unbound_keys"))
  then modify (set_forward_unbound_keys (config "general" "forward_unbound_keys"))
  else mret tt.

Definition is_key_type (typ : QEventType) : bool :=
  match typ with KeyPress | KeyRelease => true | OtherEventType _ => false end.

Definition eventFilter (obj : QObject) (evt : QKeyEvent) : M bool :=
  self ← get;
  match mode self with
  | None => mret false
  | Some cur =>
      let typ := evt_type evt in
      if negb (is_key_type typ) then mret false
      else if negb (isinstance_QWindow obj) then mret false
      else
        match _handlers self !! cur with
        | None => raise (KeyError cur)
        | Some handler =>
            match typ with
            | KeyPress =>
                emit (sig_key_pressed evt);;
                let handled :=
                  match handler with Some h => h evt | None => false end in
                self ← get;
                let filter_this :=
                  if handled then true
                  else if bool_decide (cur ∈ passthrough self)
                          || _forward_unbound_keys self then false
                  else true in
                (if negb filter_this
                 then modify (set_releaseevents_to_pass (λ l, l ++ [evt_id evt]))
                 else mret tt);;
                mret filter_this
            | _ =>
                if bool_decide (evt_id evt ∈ _releaseevents_to_pass self) then
                  modify (set_releaseevents_to_pass
                            (λ l, filter (λ e, e ≠ evt_id evt) l));;
                  mret false
                else mret true
            end
        end
  end.

(** ** Runs of the manager *)

(** The calls the application makes on the manager. *)
Inductive Op :=
  | OpRegister (mode : Mode) (handler : option Handler) (passthrough : bool)
  | OpEnter (mode : Mode)
  | OpLeave (mode : Mode)
  | OpMaybeLeave (mode : Mode)
  | OpLeaveCurrentMode
  | OpConfigChanged (config : Config) (section option : string)
  | OpEventFilter (obj : QObject) (evt : QKeyEvent).

(** The manager after a call; an exception goes to the caller and the
    manager stays as the call left it. *)
Definition step (op : Op) (self : ModeManager) : ModeManager :=
  match op with
  | OpRegister m h p => (register m h p self).2
  | OpEnter m => (enter m self).2
  | OpLeave m => (leave m self).2
  | OpMaybeLeave m => (maybe_leave m self).2
  | OpLeaveCurrentMode => (leave_current_mode self).2
  | OpConfigChanged c s o => (on_config_changed c s o self).2
  | OpEventFilter obj evt => (eventFilter obj evt self).2
  end.

Inductive reachable : ModeManager → Prop :=
  | reachable_init config : reachable (__init__ config)
  | reachable_step op self : reachable self → reachable (step op self).

(** Every mode on the stack is a key of [_handlers]. *)
Definition stack_registered (self : ModeManager) : Prop :=
  ∀ m, m ∈ _mode_stack self → is_Some (_handlers self !! m).

(** An event that reaches the key-press / key-release part of the filter. *)
Definition dispatched (obj : QObject) (evt : QKeyEvent) (self : ModeManager) : bool :=
  bool_decide (is_Some (mode self)) && is_key_type (evt_type evt)
  && isinstance_QWindow obj.

(** The record of a dispatched event: the event and the filter's answer
    ([true]: consumed, [false]: forwarded). *)
Definition History := list (QKeyEvent * bool).

(** Runs the calls in order and records the dispatched events, latest
    first. *)
Fixpoint run (ops : list Op) (self : ModeManager) (hist : History)
    : ModeManager * History :=
  match ops with
  | [] => (self, hist)
  | op :: ops' =>
      let hist' :=
        match op with
        | OpEventFilter obj evt =>
            if dispatched obj evt self then
              match (eventFilter obj evt self).1 with
              | Return consume => (evt, consume) :: hist
              | Raise _ => hist
              end
            else hist
        | _ => hist
        end in
      run ops' (step op self) hist'
  end.


(** ** Concrete managers used in the examples *)

Definition no_forward : Config := λ _ _, false.
Definition do_forward : Config := λ _ _, true.
Definition always (b : bool) : Handler := λ _, b.

(** [ModeManager()], then each call of [ops] in order. *)
Definition after (config : Config) (ops : list Op) : ModeManager :=
  (run ops (__init__ config) []).1.

Definition press (id : nat) : QKeyEvent := mkEvent id KeyPress.
Definition release (id : nat) : QKeyEvent := mkEvent id KeyRelease.

(** ** Auxiliary definitions for the statements *)

(** [handler(evt) if handler is not None else False] *)
Definition handled_by (handler : option Handler) (evt : QKeyEvent) : bool :=
  match handler with Some h => h evt | None => false end.

(** The fields of [self] after [self.key_pressed.emit(evt)]. *)
Definition with_emitted (sig : Signal) (self : ModeManager) : ModeManager :=
  (emit sig self).2.


(** A manager in normal mode whose handler leaves every key unbound, with
    forward_unbound_keys set. *)
Definition normal_unbound : ModeManager :=
  after do_forward
    [OpRegister "normal" (Some (always false)) false; OpEnter "normal"].

(** A manager in insert mode, registered as passthrough with handler [h]. *)
Definition insert_with (h : Handler) : ModeManager :=
  after no_forward
    [OpRegister "normal" (Some (always true)) false;
     OpRegister "insert" (Some h) true;
     OpEnter "normal"; OpEnter "insert"].

(** A manager where insert mode was registered as passthrough and then
    registered again, not as passthrough, with a handler that leaves every
    key unbound. *)
Definition reregistered : ModeManager :=
  after no_forward
    [OpRegister "insert" (Some (always true)) true;
     OpRegister "insert" (Some (always false)) false;
     OpEnter "insert"].

(** A manager in hint mode on top of normal mode. *)
Definition hinting : ModeManager :=
  after no_forward
    [OpRegister "normal" (Some (always true)) false;
     OpRegister "hint" (Some (always true)) false;
     OpEnter "normal"; OpEnter "hint"].

(** The calls that bring a manager into normal mode, with a handler that
    leaves every key unbound, and pass the press of event 1 to the filter. *)
Definition key_held : list Op :=
  [OpRegister "normal" (Some (always false)) false; OpEnter "normal";
   OpEventFilter QWindow (press 1)].

From Stdlib Require Import Ascii.
From stdpp Require Import pretty.

(** ** The application's registrations *)


(** ** What the signals tell an observer *)

(** The stack as a slot connected to [entered] and [left] can keep it:
    append on [entered], drop the first occurrence on [left]. *)
Definition observe_signal (st : list Mode) (sig : Signal) : list Mode :=
  match sig with
  | sig_entered m => st ++ [m]
  | sig_left m => default st (list_remove m st)
  | sig_key_pressed _ => st
  end.

Definition observed_stack (sigs : list Signal) : list Mode :=
  fold_left observe_signal sigs [].

Definition is_event_op (op : Op) : bool :=
  match op with OpEventFilter _ _ => true | _ => false end.

Definition is_press (evt : QKeyEvent) : bool :=
  match evt_type evt with KeyPress => true | _ => false end.

(** ** Further concrete managers *)

(** A manager in normal mode with hint mode registered as well. *)
Definition normal_and_hint : ModeManager :=
  after no_forward
    [OpRegister "normal" (Some (always true)) false;
     OpRegister "hint" (Some (always true)) false;
     OpEnter "normal"].

(** A manager where hint mode, normal mode and hint mode again were
    entered: hint is on the stack twice. *)
Definition hint_twice : ModeManager :=
  after no_forward
    [OpRegister "normal" (Some (always true)) false;
     OpRegister "hint" (Some (always true)) false;
     OpEnter "hint"; OpEnter "normal"; OpEnter "hint"].

(** ** utils: text

    A Python [str] is modelled as the list of its code points. *)

(** ['…'] *)
Definition ellipsis : N := 8230.

Definition elide (text : list N) (length : Z) : outcome (list N) :=
  if bool_decide (length < 1)%Z then Raise (ValueError "length must be >= 1!")
  else if bool_decide (Z.of_nat (List.length text) ≤ length)%Z then Return text
  else Return (take (Z.to_nat (length - 1)) text ++ [ellipsis]).

(** The line boundaries of [str.splitlines]: the characters LF, CR, VT, FF,
    FS, GS, RS, NEL (U+0085), U+2028 and U+2029; CR followed by LF counts as
    one boundary. *)
Definition is_linebreak (c : N) : bool :=
  bool_decide (c ∈ [10; 13; 11; 12; 28; 29; 30; 133; 8232; 8233]%N).

(** [str.splitlines()] without the line ends; [line] holds, latest first,
    the characters of the line being read.  Python yields a line for every
    boundary and for what follows the last one unless that is empty. *)
Fixpoint splitlines_from (line : list N) (s : list N) : list (list N) :=
  match s with
  | [] => match line with [] => [] | _ => [reverse line] end
  | c :: s' =>
      if is_linebreak c then
        reverse line ::
          match s' with
          | c' :: s'' =>
              if bool_decide (c = 13%N) && bool_decide (c' = 10%N)
              then splitlines_from [] s''
              else splitlines_from [] s'
          | [] => splitlines_from [] s'
          end
      else splitlines_from (c :: line) s'
  end.

Definition splitlines (s : list N) : list (list N) := splitlines_from [] s.

Fixpoint lstrip (isspace : N → bool) (s : list N) : list N :=
  match s with
  | [] => []
  | c :: s' => if isspace c then lstrip isspace s' else s
  end.

(** [str.strip()]; [isspace] is [str.isspace] on one character, which
    depends on the Unicode tables of the interpreter. *)
Definition strip (isspace : N → bool) (s : list N) : list N :=
  reverse (lstrip isspace (reverse (lstrip isspace s))).

Definition compact_text (isspace : N → bool) (text : list N)
    (elidelength : option Z) : outcome (list N) :=
  let out := concat (map (strip isspace) (splitlines text)) in
  match elidelength with
  | Some length => elide out length
  | None => Return out
  end.

(** ** Application: quitting *)

(** [self._quit_status] as [Application.__init__] sets it. *)
Definition _quit_status_init : gmap string bool :=
  <["crash" := true]> (<["tabs" := false]>
    (<["networkmanager" := false]> (<["main" := false]> ∅))).

(** [Application._maybe_quit]: the new status, and whether [self.quit()] is
    called. *)
Definition _maybe_quit (sender : string) (_quit_status : gmap string bool)
    : gmap string bool * bool :=
  let _quit_status := <[sender := true]> _quit_status in
  (_quit_status, bool_decide (map_Forall (λ _ v, v = true) _quit_status)).

(** The status after [_maybe_quit] was called for each of [senders]. *)
Definition quit_status_after (senders : list string) : gmap string bool :=
  fold_left (λ st sender, (_maybe_quit sender st).1) senders _quit_status_init.

(** ASCII space as [str.isspace] for the examples. *)
Definition ascii_isspace (c : N) : bool :=
  bool_decide (c ∈ [9; 10; 11; 12; 13; 32]%N).

(** Neither the first nor the last character of [s] is white space. *)
Definition no_outer_space (isspace : N → bool) (s : list N) : Prop :=
  (∀ c, head s = Some c → isspace c = false)
  ∧ (∀ c, last s = Some c → isspace c = false).

(** ** utils: [format_seconds]

    [total_seconds] is an [int]; [round] and [abs] are then exact, and
    [divmod] by a positive number is [Z.div] and [Z.modulo]. *)

(** ['{:02}'.format(n)]: at least two characters, zero-filled after the
    sign. *)
Definition format_02 (n : Z) : string :=
  if bool_decide (0 ≤ n < 10)%Z then "0" +:+ pretty n else pretty n.

(** [sep.join(chunks)] *)
Fixpoint str_join (sep : string) (chunks : list string) : string :=
  match chunks with
  | [] => ""
  | x :: chunks' =>
      match chunks' with
      | [] => x
      | _ => x +:+ sep +:+ str_join sep chunks'
      end
  end.

Definition format_seconds (total_seconds : Z) : string :=
  let prefix := if bool_decide (total_seconds < 0)%Z then "-" else "" in
  let hours := (Z.abs total_seconds `div` 3600)%Z in
  let rem := (Z.abs total_seconds `mod` 3600)%Z in
  let minutes := (rem `div` 60)%Z in
  let seconds := (rem `mod` 60)%Z in
  let chunks :=
    if bool_decide (hours ≠ 0)%Z
    then [pretty hours; format_02 minutes]
    else [pretty minutes] in
  prefix +:+ str_join ":" (chunks ++ [format_02 seconds]).

(** What [format_seconds] writes after the sign for [h] hours, [m] minutes
    and [s] seconds. *)
Definition hms_string (h m s : Z) : string :=
  if bool_decide (h = 0)%Z then pretty m +:+ ":" +:+ format_02 s
  else pretty h +:+ ":" +:+ format_02 m +:+ ":" +:+ format_02 s.

(** ** The event filter, case by case *)

Ltac unfold_M :=
  unfold mbind, M_bind, mret, M_ret, get, raise, modify, emit; cbv beta iota.

Lemma mode_elem_of self cur : mode self = Some cur → cur ∈ _mode_stack self.
Proof.
  unfold mode. intros H. apply last_Some in H as [l' ->].
  apply elem_of_app. right. apply list_elem_of_singleton. reflexivity.
Qed.

Lemma dispatched_true obj evt self :
  dispatched obj evt self = true ↔
  (∃ cur, mode self = Some cur) ∧ is_key_type (evt_type evt) = true ∧ obj = QWindow.
Proof.
  unfold dispatched. rewrite !andb_true_iff, bool_decide_eq_true.
  unfold is_Some. destruct obj; simpl; intuition congruence.
Qed.

Lemma eventFilter_not_dispatched obj evt self :
  dispatched obj evt self = false → eventFilter obj evt self = (Return false, self).
Proof.
  unfold dispatched, eventFilter. unfold_M.
  destruct (mode self) as [cur|]; [|reflexivity].
  destruct (is_key_type (evt_type evt)); [|reflexivity].
  destruct obj; simpl; [|reflexivity].
  discriminate.
Qed.

Lemma eventFilter_press evt self cur handler :
  mode self = Some cur → _handlers self !! cur = Some handler →
  evt_type evt = KeyPress →
  eventFilter QWindow evt self =
    let consume :=
      handled_by handler evt
      || negb (bool_decide (cur ∈ passthrough self) || _forward_unbound_keys self) in
    (Return consume,
     if consume then with_emitted (sig_key_pressed evt) self
     else set_releaseevents_to_pass (λ l, l ++ [evt_id evt])
            (with_emitted (sig_key_pressed evt) self)).
Proof.
  intros Hm Hh Ht. unfold eventFilter, with_emitted, handled_by. unfold_M.
  rewrite Hm; cbv beta iota zeta; rewrite Ht, Hh. simpl.
  destruct (match handler with Some h => h evt | None => false end);
    simpl; [reflexivity|].
  destruct (bool_decide (cur ∈ passthrough self) || _forward_unbound_keys self);
    reflexivity.
Qed.

Lemma eventFilter_release evt self cur handler :
  mode self = Some cur → _handlers self !! cur = Some handler →
  evt_type evt = KeyRelease →
  eventFilter QWindow evt self =
    if bool_decide (evt_id evt ∈ _releaseevents_to_pass self)
    then (Return false,
          set_releaseevents_to_pass (λ l, filter (λ e, e ≠ evt_id evt) l) self)
    else (Return true, self).
Proof.
  intros Hm Hh Ht. unfold eventFilter. unfold_M.
  rewrite Hm; cbv beta iota zeta; rewrite Ht, Hh. simpl.
  destruct (bool_decide (evt_id evt ∈ _releaseevents_to_pass self)); reflexivity.
Qed.

Lemma eventFilter_unregistered evt self cur :
  mode self = Some cur → _handlers self !! cur = None →
  is_key_type (evt_type evt) = true →
  eventFilter QWindow evt self = (Raise (KeyError cur), self).
Proof.
  intros Hm Hh Ht. unfold eventFilter. unfold_M.
  rewrite Hm; cbv beta iota zeta; rewrite Ht, Hh. reflexivity.
Qed.

(** The filter never touches the registry, the passthrough list, the stack
    or the setting. *)
Lemma eventFilter_fields obj evt self :
  let self' := (eventFilter obj evt self).2 in
  _handlers self' = _handlers self ∧ passthrough self' = passthrough self
  ∧ _mode_stack self' = _mode_stack self
  ∧ _forward_unbound_keys self' = _forward_unbound_keys self.
Proof.
  destruct (dispatched obj evt self) eqn:Hd.
  - apply dispatched_true in Hd as ([cur Hm] & Hk & ->).
    destruct (_handlers self !! cur) as [handler|] eqn:Hh.
    + destruct (evt_type evt) eqn:Ht; try discriminate.
      * rewrite (eventFilter_press _ _ _ _ Hm Hh Ht). simpl.
        destruct (_ || _); simpl; auto.
      * rewrite (eventFilter_release _ _ _ _ Hm Hh Ht).
        destruct (bool_decide _); simpl; auto.
    + rewrite (eventFilter_unregistered _ _ _ Hm Hh Hk). simpl. auto.
  - rewrite (eventFilter_not_dispatched _ _ _ Hd). simpl. auto.
Qed.

(** ** [list.remove] *)

Lemma list_remove_None x l : list_remove x l = None ↔ x ∉ l.
Proof.
  induction l as [|y l IH]; simpl.
  - split; [intros _; apply not_elem_of_nil | reflexivity].
  - rewrite not_elem_of_cons. case_bool_decide as Hy.
    + split; [discriminate | intros [Hne _]; congruence].
    + destruct (list_remove x l) as [r|].
      * split; [discriminate|]. intros [_ Hn]. apply IH in Hn. discriminate.
      * split; [|reflexivity]. intros _. split; [congruence | by apply IH].
Qed.

(** What [remove] leaves is the list without the first occurrence. *)
Lemma list_remove_Some x l r :
  list_remove x l = Some r ↔ ∃ l1 l2, l = l1 ++ x :: l2 ∧ (x ∉ l1) ∧ r = l1 ++ l2.
Proof.
  revert r. induction l as [|y l IH]; intros r; simpl.
  - split; [discriminate|]. intros (l1 & l2 & H & _). by destruct l1.
  - case_bool_decide as Hy.
    + subst y. split.
      * intros [= <-]. exists [], l. repeat split. apply not_elem_of_nil.
      * intros (l1 & l2 & H & Hn & ->). destruct l1 as [|z l1].
        -- simpl in *. congruence.
        -- simpl in H. injection H as -> _. exfalso. apply Hn. left.
    + destruct (list_remove x l) as [r'|] eqn:E.
      * split.
        -- intros [= <-]. destruct (proj1 (IH r') eq_refl) as (l1 & l2 & -> & Hn & ->).
           exists (y :: l1), l2. repeat split. rewrite not_elem_of_cons. auto.
        -- intros (l1 & l2 & H & Hn & ->). destruct l1 as [|z l1].
           ++ simpl in H. congruence.
           ++ simpl in H. injection H as -> ->. apply not_elem_of_cons in Hn as [_ Hn].
              f_equal. simpl. f_equal.
              assert (Some r' = Some (l1 ++ l2)) as [= ->]; [|reflexivity].
              apply IH. eauto.
      * split; [discriminate|]. intros (l1 & l2 & H & Hn & ->).
        apply list_remove_None in E. destruct l1 as [|z l1]; simpl in H.
        -- congruence.
        -- injection H as -> ->. exfalso. apply E. apply elem_of_app. right. left.
Qed.

Lemma list_remove_subseteq x l r m : list_remove x l = Some r → m ∈ r → m ∈ l.
Proof.
  intros (l1 & l2 & -> & _ & ->)%list_remove_Some.
  rewrite !elem_of_app, elem_of_cons. tauto.
Qed.

(** ** [register], [enter] and [leave], case by case *)

Lemma register_eq m h p self :
  register m h p self =
    (Return tt,
     let self1 := set_handlers (λ hs, <[m := h]> hs) self in
     if p then set_passthrough (λ ps, ps ++ [m]) self1 else self1).
Proof. unfold register. unfold_M. destruct p; reflexivity. Qed.

Lemma register_fields m h p self :
  let self' := (register m h p self).2 in
  _handlers self' = <[m := h]> (_handlers self)
  ∧ passthrough self' = (if p then passthrough self ++ [m] else passthrough self)
  ∧ _mode_stack self' = _mode_stack self
  ∧ _forward_unbound_keys self' = _forward_unbound_keys self.
Proof. rewrite register_eq. by destruct p. Qed.

Lemma enter_unregistered m self :
  _handlers self !! m = None →
  enter m self = (Raise (ValueError ("No handler for mode " +:+ m)), self).
Proof. intros H. unfold enter. unfold_M. rewrite H. reflexivity. Qed.

Lemma enter_top m self :
  is_Some (_handlers self !! m) → mode self = Some m →
  enter m self = (Return tt, self).
Proof.
  intros [h H] Hm. unfold enter. unfold_M. rewrite H.
  unfold mode in Hm. rewrite bool_decide_true by done. reflexivity.
Qed.

Lemma enter_push m self :
  is_Some (_handlers self !! m) → mode self ≠ Some m →
  enter m self =
    (Return tt,
     with_emitted (sig_entered m) (set_mode_stack (λ st, st ++ [m]) self)).
Proof.
  intros [h H] Hm. unfold enter, with_emitted. unfold_M. rewrite H.
  unfold mode in Hm. rewrite bool_decide_false by done. reflexivity.
Qed.

Lemma leave_absent m self :
  m ∉ _mode_stack self →
  leave m self =
    (Raise (ValueError ("Mode " +:+ m +:+ " not on mode stack!")), self).
Proof.
  intros H%list_remove_None. unfold leave. unfold_M. rewrite H. reflexivity.
Qed.

Lemma leave_present m self st :
  list_remove m (_mode_stack self) = Some st →
  leave m self =
    (Return tt, with_emitted (sig_left m) (set_mode_stack (λ _, st) self)).
Proof. intros H. unfold leave, with_emitted. unfold_M. rewrite H. reflexivity. Qed.

(** ** Every mode on the stack is registered *)

Lemma leave_stack_registered m self :
  stack_registered self → stack_registered (leave m self).2.
Proof.
  intros Hs. destruct (list_remove m (_mode_stack self)) as [st|] eqn:E.
  - rewrite (leave_present _ _ _ E). intros x Hx. simpl in *.
    apply Hs. eapply list_remove_subseteq; eauto.
  - apply list_remove_None in E. rewrite (leave_absent _ _ E). exact Hs.
Qed.

Lemma step_stack_registered op self :
  stack_registered self → stack_registered (step op self).
Proof.
  intros Hs. destruct op as [m h p|m|m|m| |c s o|obj evt]; simpl.
  - rewrite register_eq. simpl. intros x Hx.
    assert (is_Some (<[m := h]> (_handlers self) !! x)) as Hi.
    { destruct (decide (m = x)) as [->|Hne].
      - rewrite lookup_insert_eq. eauto.
      - rewrite lookup_insert_ne by done. apply Hs. by destruct p. }
    by destruct p.
  - destruct (_handlers self !! m) as [h|] eqn:Hh.
    + destruct (decide (mode self = Some m)) as [Hm|Hm].
      * rewrite enter_top; eauto.
      * rewrite enter_push by eauto. intros x Hx. simpl in *.
        apply elem_of_app in Hx as [Hx|Hx%list_elem_of_singleton]; [by apply Hs|].
        subst x. eauto.
    + rewrite enter_unregistered by done. exact Hs.
  - by apply leave_stack_registered.
  - pose proof (leave_stack_registered m self Hs) as H.
    unfold maybe_leave, try_except_ValueError.
    destruct (leave m self) as [[[]|[msg|k]] self']; exact H.
  - unfold leave_current_mode, leave_None. unfold_M.
    destruct (mode self) as [m|]; [|exact Hs].
    case_bool_decide; [exact Hs|]. by apply leave_stack_registered.
  - unfold on_config_changed. unfold_M. case_bool_decide; exact Hs.
  - destruct (eventFilter_fields obj evt self) as (Hh & _ & Hst & _).
    intros x Hx. rewrite Hh. apply Hs. by rewrite <- Hst.
Qed.

Lemma reachable_stack_registered self : reachable self → stack_registered self.
Proof.
  induction 1 as [config|op self _ IH].
  - intros m Hm. simpl in Hm. by apply elem_of_nil in Hm.
  - by apply step_stack_registered.
Qed.

Lemma run_reachable ops self hist :
  reachable self → reachable (run ops self hist).1.
Proof.
  revert self hist. induction ops as [|op ops IH]; intros self hist Hr; simpl.
  - exact Hr.
  - apply IH. by constructor.
Qed.

Lemma after_reachable config ops : reachable (after config ops).
Proof. apply run_reachable. constructor. Qed.

Lemma reachable_current_handler self cur :
  reachable self → mode self = Some cur → is_Some (_handlers self !! cur).
Proof.
  intros Hr Hm. apply (reachable_stack_registered _ Hr). by apply mode_elem_of.
Qed.

(** ** The pending releases and the history of dispatched events *)

Lemma step_pending_not_event op self :
  (∀ obj evt, op ≠ OpEventFilter obj evt) →
  _releaseevents_to_pass (step op self) = _releaseevents_to_pass self.
Proof.
  intros Hop. destruct op as [m h p|m|m|m| |c s o|obj evt]; simpl.
  - rewrite register_eq. by destruct p.
  - unfold enter. unfold_M. destruct (_handlers self !! m); [|done].
    by case_bool_decide.
  - unfold leave. unfold_M. by destruct (list_remove m (_mode_stack self)).
  - unfold maybe_leave, try_except_ValueError, leave. unfold_M.
    by destruct (list_remove m (_mode_stack self)).
  - unfold leave_current_mode, leave_None, leave. unfold_M.
    destruct (mode self) as [m|]; [|done]. case_bool_decide; [done|].
    by destruct (list_remove m (_mode_stack self)).
  - unfold on_config_changed. unfold_M. by case_bool_decide.
  - by destruct (Hop obj evt).
Qed.

Lemma run_cons op ops self hist :
  run (op :: ops) self hist = run ops (run [op] self hist).1 (run [op] self hist).2.
Proof. reflexivity. Qed.





(** A dispatched release is forwarded exactly when the event is pending. *)
Lemma release_decision obj evt self :
  stack_registered self → dispatched obj evt self = true →
  evt_type evt = KeyRelease →
  (eventFilter obj evt self).1 =
    Return (negb (bool_decide (evt_id evt ∈ _releaseevents_to_pass self)))
  ∧ evt_id evt ∉ _releaseevents_to_pass (eventFilter obj evt self).2.
Proof.
  intros Hs ([cur Hm] & _ & ->)%dispatched_true Ht.
  destruct (Hs cur (mode_elem_of _ _ Hm)) as [handler Hh].
  rewrite (eventFilter_release _ _ _ _ Hm Hh Ht).
  destruct (bool_decide (evt_id evt ∈ _releaseevents_to_pass self)) eqn:Hin; simpl.
  - split; [done|]. rewrite list_elem_of_filter. tauto.
  - split; [done|]. by apply bool_decide_eq_false in Hin.
Qed.

(** ** Examples from the specification *)

Example nesting :
  _mode_stack (after no_forward
    [OpRegister "normal" (Some (always true)) false;
     OpRegister "hint" (Some (always true)) false;
     OpEnter "normal"; OpEnter "hint"]) = ["normal"; "hint"]
  ∧ _mode_stack (after no_forward
    [OpRegister "normal" (Some (always true)) false;
     OpRegister "hint" (Some (always true)) false;
     OpEnter "normal"; OpEnter "hint"; OpLeave "hint"]) = ["normal"].
Proof. split; vm_compute; reflexivity. Qed.

Example truth_table_unbound :
  (eventFilter QWindow (press 1) (after no_forward
    [OpRegister "normal" (Some (always false)) false; OpEnter "normal"])).1
    = Return true
  ∧ (eventFilter QWindow (press 1) (after do_forward
    [OpRegister "normal" (Some (always false)) false; OpEnter "normal"])).1
    = Return false.
Proof. split; vm_compute; reflexivity. Qed.

(** With forward_unbound_keys set, an unbound press is forwarded, its
    release is forwarded, and the release of another event is consumed. *)
Example forwarded_pair :
  (run (key_held ++ [OpEventFilter QWindow (release 2);
                     OpEventFilter QWindow (release 1);
                     OpEventFilter QWindow (release 1)])
     (__init__ do_forward) []).2
  = [(release 1, true); (release 1, false); (release 2, true); (press 1, false)].
Proof. vm_compute. reflexivity. Qed.

(** * The claims *)

(** C1: for a key press delivered for a QWindow while a mode is active, the
    filter returns [handled or not (mode in passthrough or
    forward_unbound_keys)], where [handled] is what the handler of the
    current mode returns, and [False] when the mode is registered with no
    handler. *)
Theorem C1_press_consume_decision self obj evt cur :
  reachable self → mode self = Some cur →
  evt_type evt = KeyPress → obj = QWindow →
  ∃ handler, _handlers self !! cur = Some handler
    ∧ (eventFilter obj evt self).1 =
        Return (handled_by handler evt
                || negb (bool_decide (cur ∈ passthrough self)
                         || _forward_unbound_keys self)).
Proof.
  intros Hr Hm Ht ->.
  destruct (reachable_current_handler _ _ Hr Hm) as [handler Hh].
  exists handler. split; [exact Hh|].
  by rewrite (eventFilter_press _ _ _ _ Hm Hh Ht).
Qed.

Lemma C1_witness :
  ∃ handler, _handlers normal_unbound !! "normal" = Some handler
    ∧ (eventFilter QWindow (press 1) normal_unbound).1 =
        Return (handled_by handler (press 1)
                || negb (bool_decide ("normal" ∈ passthrough normal_unbound)
                         || _forward_unbound_keys normal_unbound)).
Proof.
  apply (C1_press_consume_decision normal_unbound QWindow (press 1) "normal").
  - apply after_reachable.
  - reflexivity.
  - reflexivity.
  - reflexivity.
Defined.



(** C3 as stated fails: in insert mode, registered as passthrough, a press
    the handler handles is consumed and a press it does not handle is
    forwarded. *)
Lemma C3_counterexample :
  "insert" ∈ passthrough (insert_with (always true))
  ∧ mode (insert_with (always true)) = Some "insert"
  ∧ mode (insert_with (always false)) = Some "insert"
  ∧ (eventFilter QWindow (press 1) (insert_with (always true))).1 = Return true
  ∧ (eventFilter QWindow (press 1) (insert_with (always false))).1 = Return false
  ∧ (eventFilter QWindow (press 1) (insert_with (always true))).1
    ≠ (eventFilter QWindow (press 1) (insert_with (always false))).1.
Proof.
  split; [vm_compute; apply list_elem_of_here|].
  repeat split; try (vm_compute; reflexivity).
  vm_compute. discriminate.
Qed.

(** C3, amended: in a mode of the passthrough list the filter's answer for a
    key press is [handled] itself, whatever forward_unbound_keys is: a
    handled press is consumed, an unhandled one forwarded. *)
Theorem C3_passthrough_decision self obj evt cur :
  reachable self → mode self = Some cur → cur ∈ passthrough self →
  evt_type evt = KeyPress → obj = QWindow →
  ∃ handler, _handlers self !! cur = Some handler
    ∧ (eventFilter obj evt self).1 = Return (handled_by handler evt).
Proof.
  intros Hr Hm Hp Ht ->.
  destruct (reachable_current_handler _ _ Hr Hm) as [handler Hh].
  exists handler. split; [exact Hh|].
  rewrite (eventFilter_press _ _ _ _ Hm Hh Ht). cbn zeta. cbn [fst].
  rewrite bool_decide_true by done. simpl. by rewrite orb_false_r.
Qed.

Lemma C3_witness :
  ∃ handler, _handlers (insert_with (always false)) !! "insert" = Some handler
    ∧ (eventFilter QWindow (press 1) (insert_with (always false))).1
      = Return (handled_by handler (press 1)).
Proof.
  apply (C3_passthrough_decision (insert_with (always false)) QWindow (press 1)
           "insert").
  - apply after_reachable.
  - reflexivity.
  - vm_compute. apply list_elem_of_here.
  - reflexivity.
  - reflexivity.
Defined.

(** C4 as stated fails: after [register(m, h1, True)] and then
    [register(m, h2, False)] the mode is still in the passthrough list, and
    a press that [h2] does not handle is forwarded, where a mode that is not
    passthrough would have it consumed. *)
Lemma C4_counterexample :
  mode reregistered = Some "insert"
  ∧ _forward_unbound_keys reregistered = false
  ∧ "insert" ∈ passthrough reregistered
  ∧ (eventFilter QWindow (press 1) reregistered).1 = Return false
  ∧ (eventFilter QWindow (press 1) reregistered).1
    ≠ Return (handled_by (Some (always false)) (press 1)
              || negb (false || _forward_unbound_keys reregistered)).
Proof.
  repeat split; try (vm_compute; reflexivity).
  - vm_compute. apply list_elem_of_here.
  - vm_compute. discriminate.
Qed.

(** C4, amended: [register(m, h1, p1)] followed by [register(m, h2, p2)]
    never fails and leaves [h2] as the handler of [m] (the last write wins),
    and dispatch in mode [m] uses [h2]; [m] is in the passthrough list
    afterwards exactly when [p1] or [p2] is true or it was there before. *)
Theorem C4_register_twice self m h1 p1 h2 p2 :
  let r1 := register m h1 p1 self in
  let r2 := register m h2 p2 r1.2 in
  r1.1 = Return tt ∧ r2.1 = Return tt
  ∧ _handlers r2.2 !! m = Some h2
  ∧ (m ∈ passthrough r2.2 ↔ p1 = true ∨ p2 = true ∨ m ∈ passthrough self)
  ∧ ∀ evt, mode r2.2 = Some m → evt_type evt = KeyPress →
      (eventFilter QWindow evt r2.2).1 =
        Return (handled_by h2 evt
                || negb (bool_decide (p1 = true ∨ p2 = true ∨ m ∈ passthrough self)
                         || _forward_unbound_keys self)).
Proof.
  intros r1 r2. subst r1 r2.
  destruct (register_fields m h1 p1 self) as (_ & Hp1 & _ & Hf1).
  destruct (register_fields m h2 p2 (register m h1 p1 self).2)
    as (Hh2 & Hp2 & _ & Hf2).
  set (self2 := (register m h2 p2 (register m h1 p1 self).2).2) in *.
  assert (_handlers self2 !! m = Some h2) as Hh.
  { rewrite Hh2. apply lookup_insert_eq. }
  assert (m ∈ passthrough self2 ↔ p1 = true ∨ p2 = true ∨ m ∈ passthrough self)
    as Hp.
  { rewrite Hp2, Hp1. destruct p1, p2;
      rewrite ?elem_of_app, ?list_elem_of_singleton; intuition congruence. }
  split; [by rewrite register_eq|]. split; [by rewrite register_eq|].
  split; [exact Hh|]. split; [exact Hp|].
  intros evt Hm Ht.
  rewrite (eventFilter_press _ _ _ _ Hm Hh Ht). cbn zeta. cbn [fst].
  rewrite Hf2, Hf1. by rewrite (bool_decide_ext _ _ Hp).
Qed.

Lemma C4_witness :
  (eventFilter QWindow (press 1)
     (register "insert" (Some (always false)) false
        (register "insert" (Some (always true)) true
           (after no_forward
              [OpRegister "insert" None false; OpEnter "insert"])).2).2).1
  = Return false.
Proof.
  pose proof (C4_register_twice
    (after no_forward [OpRegister "insert" None false; OpEnter "insert"])
    "insert" (Some (always true)) true (Some (always false)) false) as H.
  cbv zeta in H. destruct H as (_ & _ & _ & _ & H).
  rewrite (H (press 1)); reflexivity.
Defined.

(** C5: [enter] of a mode that is no key of [_handlers] raises the
    [ValueError] for an unknown mode and leaves the manager, stack and
    emitted signals included, as it was; and in every manager reached from
    [ModeManager()] by calls of its methods, every mode on the stack is a key
    of [_handlers]. *)
Theorem C5_enter_unknown_mode self m :
  (_handlers self !! m = None →
   enter m self = (Raise (ValueError ("No handler for mode " +:+ m)), self))
  ∧ (reachable self →
     ∀ m', m' ∈ _mode_stack self → is_Some (_handlers self !! m')).
Proof.
  split.
  - apply enter_unregistered.
  - apply reachable_stack_registered.
Qed.

Lemma C5_witness :
  enter "hint" normal_unbound
    = (Raise (ValueError "No handler for mode hint"), normal_unbound)
  ∧ ∀ m', m' ∈ _mode_stack normal_unbound
      → is_Some (_handlers normal_unbound !! m').
Proof.
  destruct (C5_enter_unknown_mode normal_unbound "hint") as [H1 H2]. split.
  - apply H1. reflexivity.
  - apply H2. apply after_reachable.
Defined.

(** C6: [leave] of a mode that is nowhere on the stack raises the
    [ValueError] for a mode that is not active and leaves the manager as it
    was; [leave] of a mode on the stack removes its first occurrence and
    emits [left] with that mode. *)
Theorem C6_leave self m :
  (m ∉ _mode_stack self →
   leave m self =
     (Raise (ValueError ("Mode " +:+ m +:+ " not on mode stack!")), self))
  ∧ (m ∈ _mode_stack self →
     ∃ l1 l2, _mode_stack self = l1 ++ m :: l2 ∧ (m ∉ l1)
       ∧ leave m self =
           (Return tt,
            mkModeManager (_handlers self) (passthrough self) (l1 ++ l2)
              (_releaseevents_to_pass self) (_forward_unbound_keys self)
              (emitted self ++ [sig_left m]))).
Proof.
  split.
  - apply leave_absent.
  - intros Hin. destruct (list_remove m (_mode_stack self)) as [st|] eqn:E.
    + pose proof E as (l1 & l2 & Hst & Hn & ->)%list_remove_Some.
      exists l1, l2. repeat (split; [done|]).
      by rewrite (leave_present _ _ _ E).
    + by apply list_remove_None in E.
Qed.

Lemma C6_witness :
  leave "hint" normal_unbound
    = (Raise (ValueError "Mode hint not on mode stack!"), normal_unbound)
  ∧ ∃ l1 l2, _mode_stack normal_unbound = l1 ++ "normal" :: l2 ∧ ("normal" ∉ l1)
      ∧ leave "normal" normal_unbound =
          (Return tt,
           mkModeManager (_handlers normal_unbound) (passthrough normal_unbound)
             (l1 ++ l2) (_releaseevents_to_pass normal_unbound)
             (_forward_unbound_keys normal_unbound)
             (emitted normal_unbound ++ [sig_left "normal"])).
Proof.
  split.
  - apply (proj1 (C6_leave normal_unbound "hint")).
    vm_compute. intros H. inversion H as [|? ? ? H']. inversion H'.
  - apply (proj2 (C6_leave normal_unbound "normal")).
    vm_compute. apply list_elem_of_here.
Defined.

(** C7: while the current mode is "normal", [leave_current_mode] raises the
    [ValueError] that normal mode cannot be left and leaves the manager as it
    was; with any other current mode it is [leave] of that mode; with no
    mode at all it is [leave(None)], which finds nothing to remove. *)
Theorem C7_leave_current_mode self :
  (mode self = Some "normal" →
   leave_current_mode self
     = (Raise (ValueError "Can't leave normal mode!"), self))
  ∧ (∀ m, mode self = Some m → m ≠ "normal" →
     leave_current_mode self = leave m self)
  ∧ (mode self = None →
     leave_current_mode self
       = (Raise (ValueError "Mode None not on mode stack!"), self)).
Proof.
  unfold leave_current_mode, leave_None. unfold_M. repeat split.
  - by intros ->.
  - intros m -> Hne. by rewrite bool_decide_false.
  - by intros ->.
Qed.

Lemma C7_witness :
  leave_current_mode normal_unbound
    = (Raise (ValueError "Can't leave normal mode!"), normal_unbound)
  ∧ leave_current_mode hinting = leave "hint" hinting
  ∧ leave_current_mode (__init__ no_forward)
    = (Raise (ValueError "Mode None not on mode stack!"), __init__ no_forward).
Proof.
  split; [|split].
  - apply (proj1 (C7_leave_current_mode normal_unbound)). reflexivity.
  - apply (proj1 (proj2 (C7_leave_current_mode hinting)) "hint").
    + reflexivity.
    + discriminate.
  - apply (proj2 (proj2 (C7_leave_current_mode (__init__ no_forward)))).
    reflexivity.
Defined.

(** C8: for a registered mode [m], [enter(m)] while [m] is the current mode
    changes nothing: the stack keeps its depth and nothing is emitted.
    Otherwise [enter(m)] appends [m] to the stack and emits [entered] with
    [m], and [m] is the current mode afterwards. *)
Theorem C8_enter self m :
  is_Some (_handlers self !! m) →
  (mode self = Some m → enter m self = (Return tt, self))
  ∧ (mode self ≠ Some m →
     enter m self =
       (Return tt,
        mkModeManager (_handlers self) (passthrough self) (_mode_stack self ++ [m])
          (_releaseevents_to_pass self) (_forward_unbound_keys self)
          (emitted self ++ [sig_entered m]))
     ∧ mode (enter m self).2 = Some m).
Proof.
  intros Hh. split.
  - by apply enter_top.
  - intros Hm. rewrite (enter_push _ _ Hh Hm). split; [reflexivity|].
    unfold mode. simpl. apply last_snoc.
Qed.

Lemma C8_witness :
  enter "hint" hinting = (Return tt, hinting)
  ∧ enter "normal" hinting =
      (Return tt,
       mkModeManager (_handlers hinting) (passthrough hinting)
         (_mode_stack hinting ++ ["normal"])
         (_releaseevents_to_pass hinting) (_forward_unbound_keys hinting)
         (emitted hinting ++ [sig_entered "normal"]))
  ∧ mode (enter "normal" hinting).2 = Some "normal".
Proof.
  split.
  - apply (C8_enter hinting "hint").
    + vm_compute. eauto.
    + reflexivity.
  - apply (C8_enter hinting "normal").
    + vm_compute. eauto.
    + vm_compute. discriminate.
Defined.

(** C9: while the mode stack is empty the filter returns [False] for every
    event and every receiver, and leaves the manager as it is. *)
Theorem C9_no_mode_forwards self obj evt :
  _mode_stack self = [] → eventFilter obj evt self = (Return false, self).
Proof.
  intros Hs. apply eventFilter_not_dispatched.
  unfold dispatched, mode. rewrite Hs. reflexivity.
Qed.

Lemma C9_witness :
  eventFilter QWindow (press 1) (__init__ do_forward)
  = (Return false, __init__ do_forward).
Proof. apply (C9_no_mode_forwards (__init__ do_forward)). reflexivity. Defined.


(** * Further properties of the manager *)



(** An event that is no key press or release, and any event delivered for an
    object that is no [QWindow], is forwarded with the manager left as it is,
    whatever the pending releases are. *)
Theorem eventFilter_ignores_other_events self obj evt :
  is_key_type (evt_type evt) = false ∨ isinstance_QWindow obj = false →
  eventFilter obj evt self = (Return false, self).
Proof.
  intros H. apply eventFilter_not_dispatched. unfold dispatched.
  destruct H as [-> | ->]; [apply andb_false_iff; left|]; apply andb_false_r.
Qed.

Lemma eventFilter_ignores_other_events_witness :
  eventFilter (OtherObject "QWidget") (release 1) (after do_forward key_held)
  = (Return false, after do_forward key_held).
Proof.
  apply (eventFilter_ignores_other_events (after do_forward key_held)).
  right. reflexivity.
Defined.

Lemma eventFilter_emits_key_pressed_aux self obj evt :
  reachable self →
  emitted (eventFilter obj evt self).2 =
    if dispatched obj evt self && is_press evt
    then emitted self ++ [sig_key_pressed evt]
    else emitted self.
Proof.
  intros Hr. destruct (dispatched obj evt self) eqn:Hd.
  2:{ by rewrite (eventFilter_not_dispatched _ _ _ Hd). }
  apply dispatched_true in Hd as ([cur Hm] & Hk & ->).
  destruct (reachable_current_handler _ _ Hr Hm) as [handler Hh].
  unfold is_press. destruct (evt_type evt) eqn:Ht; try discriminate.
  - rewrite (eventFilter_press _ _ _ _ Hm Hh Ht). cbn zeta.
    by destruct (_ || _).
  - rewrite (eventFilter_release _ _ _ _ Hm Hh Ht). by destruct (bool_decide _).
Qed.

(** [key_pressed] is emitted once for every dispatched press, consumed or
    not, and for nothing else: the filter emits no other signal. *)
Theorem eventFilter_emits_key_pressed self obj evt :
  reachable self →
  emitted (eventFilter obj evt self).2 =
    if dispatched obj evt self && is_press evt
    then emitted self ++ [sig_key_pressed evt]
    else emitted self.
Proof. apply eventFilter_emits_key_pressed_aux. Qed.

Lemma eventFilter_emits_key_pressed_witness :
  emitted (eventFilter QWindow (press 7) hinting).2 =
    if dispatched QWindow (press 7) hinting && is_press (press 7)
    then emitted hinting ++ [sig_key_pressed (press 7)]
    else emitted hinting.
Proof. apply (eventFilter_emits_key_pressed hinting). apply after_reachable. Defined.

(** [maybe_leave] never raises: it is [leave] when the mode is on the stack,
    and does nothing at all when it is not. *)
Theorem maybe_leave_never_raises self m :
  (maybe_leave m self).1 = Return tt
  ∧ (m ∈ _mode_stack self → maybe_leave m self = leave m self)
  ∧ (m ∉ _mode_stack self → maybe_leave m self = (Return tt, self)).
Proof.
  unfold maybe_leave, try_except_ValueError.
  destruct (list_remove m (_mode_stack self)) as [st|] eqn:E.
  - rewrite (leave_present _ _ _ E). split; [done|]. split; [done|].
    intros Hn. apply list_remove_None in Hn. congruence.
  - apply list_remove_None in E. rewrite (leave_absent _ _ E).
    split; [done|]. split; [done|]. done.
Qed.

Lemma maybe_leave_never_raises_witness :
  (maybe_leave "hint" hinting).1 = Return tt
  ∧ maybe_leave "hint" hinting = leave "hint" hinting
  ∧ maybe_leave "insert" hinting = (Return tt, hinting).
Proof.
  destruct (maybe_leave_never_raises hinting "hint") as (H1 & H2 & _).
  destruct (maybe_leave_never_raises hinting "insert") as (_ & _ & H3).
  split; [exact H1|]. split.
  - apply H2. vm_compute. apply list_elem_of_further, list_elem_of_here.
  - apply H3. vm_compute. intros H. inversion H as [|? ? ? H']; subst.
    inversion H' as [|? ? ? H'']; subst. inversion H''.
Defined.

(** Entering a registered mode that is not on the stack and leaving it again
    gives back the stack as it was; [entered] and [left] are emitted, in this
    order. *)
Theorem enter_then_leave self m :
  is_Some (_handlers self !! m) → m ∉ _mode_stack self →
  (enter m self).1 = Return tt
  ∧ leave m (enter m self).2 =
      (Return tt,
       mkModeManager (_handlers self) (passthrough self) (_mode_stack self)
         (_releaseevents_to_pass self) (_forward_unbound_keys self)
         (emitted self ++ [sig_entered m; sig_left m])).
Proof.
  intros Hh Hn.
  assert (mode self ≠ Some m) as Hm.
  { intros Hm. by apply Hn, mode_elem_of. }
  rewrite (enter_push _ _ Hh Hm). split; [done|].
  assert (list_remove m (_mode_stack self ++ [m]) = Some (_mode_stack self)) as E.
  { apply list_remove_Some. exists (_mode_stack self), [].
    by rewrite app_nil_r. }
  rewrite (leave_present _ _ (_mode_stack self)) by exact E.
  unfold with_emitted. simpl. by rewrite <- app_assoc.
Qed.

Lemma enter_then_leave_witness :
  (enter "hint" normal_and_hint).1 = Return tt
  ∧ leave "hint" (enter "hint" normal_and_hint).2 =
      (Return tt,
       mkModeManager (_handlers normal_and_hint) (passthrough normal_and_hint)
         (_mode_stack normal_and_hint)
         (_releaseevents_to_pass normal_and_hint)
         (_forward_unbound_keys normal_and_hint)
         (emitted normal_and_hint ++ [sig_entered "hint"; sig_left "hint"])).
Proof.
  apply (enter_then_leave normal_and_hint "hint").
  - vm_compute. eauto.
  - vm_compute. intros H. inversion H as [|? ? ? H']. inversion H'.
Defined.

(** [leave_current_mode] with a current mode other than "normal" that occurs
    nowhere else on the stack pops it: it returns, emits [left], and the mode
    below becomes the current one. *)
Theorem leave_current_mode_pops self st m :
  _mode_stack self = st ++ [m] → m ≠ "normal" → m ∉ st →
  leave_current_mode self =
    (Return tt,
     mkModeManager (_handlers self) (passthrough self) st
       (_releaseevents_to_pass self) (_forward_unbound_keys self)
       (emitted self ++ [sig_left m]))
  ∧ mode (leave_current_mode self).2 = last st.
Proof.
  intros Hst Hne Hn.
  assert (leave_current_mode self =
    (Return tt,
     mkModeManager (_handlers self) (passthrough self) st
       (_releaseevents_to_pass self) (_forward_unbound_keys self)
       (emitted self ++ [sig_left m]))) as E.
  { assert (mode self = Some m) as Hm.
    { unfold mode. rewrite Hst. apply last_snoc. }
    unfold leave_current_mode. unfold_M. rewrite Hm.
    rewrite bool_decide_false by done.
    rewrite (leave_present m self st); [done|].
    rewrite Hst. apply list_remove_Some. exists st, []. by rewrite app_nil_r. }
  by rewrite E.
Qed.

Lemma leave_current_mode_pops_witness :
  leave_current_mode hinting =
    (Return tt,
     mkModeManager (_handlers hinting) (passthrough hinting) ["normal"]
       (_releaseevents_to_pass hinting) (_forward_unbound_keys hinting)
       (emitted hinting ++ [sig_left "hint"]))
  ∧ mode (leave_current_mode hinting).2 = last ["normal"].
Proof.
  apply (leave_current_mode_pops hinting ["normal"] "hint").
  - reflexivity.
  - discriminate.
  - intros H. inversion H as [|? ? ? H']; subst. inversion H'.
Defined.

(** When the current mode also occurs deeper in the stack,
    [leave_current_mode] removes the deepest occurrence and not the top: the
    stack gets shorter by one, and the current mode stays what it was. *)
Theorem leave_current_mode_keeps_duplicate self l1 l2 m :
  _mode_stack self = l1 ++ m :: l2 ++ [m] → m ≠ "normal" → m ∉ l1 →
  leave_current_mode self =
    (Return tt,
     mkModeManager (_handlers self) (passthrough self) (l1 ++ l2 ++ [m])
       (_releaseevents_to_pass self) (_forward_unbound_keys self)
       (emitted self ++ [sig_left m]))
  ∧ mode (leave_current_mode self).2 = Some m.
Proof.
  intros Hst Hne Hn.
  assert (leave_current_mode self =
    (Return tt,
     mkModeManager (_handlers self) (passthrough self) (l1 ++ l2 ++ [m])
       (_releaseevents_to_pass self) (_forward_unbound_keys self)
       (emitted self ++ [sig_left m]))) as E.
  { assert (mode self = Some m) as Hm.
    { unfold mode. rewrite Hst.
      change (m :: l2 ++ [m]) with ((m :: l2) ++ [m]).
      rewrite app_assoc. apply last_snoc. }
    unfold leave_current_mode. unfold_M. rewrite Hm.
    rewrite bool_decide_false by done.
    rewrite (leave_present m self (l1 ++ l2 ++ [m])); [done|].
    rewrite Hst. apply list_remove_Some. by exists l1, (l2 ++ [m]). }
  rewrite E. split; [done|]. unfold mode. simpl.
  rewrite app_assoc. apply last_snoc.
Qed.

Lemma leave_current_mode_keeps_duplicate_witness :
  leave_current_mode hint_twice =
    (Return tt,
     mkModeManager (_handlers hint_twice) (passthrough hint_twice)
       ([] ++ ["normal"] ++ ["hint"])
       (_releaseevents_to_pass hint_twice) (_forward_unbound_keys hint_twice)
       (emitted hint_twice ++ [sig_left "hint"]))
  ∧ mode (leave_current_mode hint_twice).2 = Some "hint".
Proof.
  apply (leave_current_mode_keeps_duplicate hint_twice [] ["normal"] "hint").
  - reflexivity.
  - discriminate.
  - apply not_elem_of_nil.
Defined.

(** ** The signals determine the stack *)

Lemma observed_stack_snoc sigs sig :
  observed_stack (sigs ++ [sig]) = observe_signal (observed_stack sigs) sig.
Proof. unfold observed_stack. by rewrite fold_left_app. Qed.

Lemma leave_observed m self :
  observed_stack (emitted self) = _mode_stack self →
  observed_stack (emitted (leave m self).2) = _mode_stack (leave m self).2.
Proof.
  intros Ho. destruct (list_remove m (_mode_stack self)) as [st|] eqn:E.
  - rewrite (leave_present _ _ _ E). simpl.
    rewrite observed_stack_snoc, Ho. simpl. by rewrite E.
  - apply list_remove_None in E. by rewrite (leave_absent _ _ E).
Qed.

Lemma step_observed op self :
  reachable self →
  observed_stack (emitted self) = _mode_stack self →
  observed_stack (emitted (step op self)) = _mode_stack (step op self).
Proof.
  intros Hr Ho. destruct op as [m h p|m|m|m| |c s o|obj evt]; simpl.
  - rewrite register_eq. by destruct p.
  - destruct (_handlers self !! m) as [h|] eqn:Hh.
    + destruct (decide (mode self = Some m)) as [Hm|Hm].
      * by rewrite enter_top by eauto.
      * rewrite enter_push by eauto. simpl.
        by rewrite observed_stack_snoc, Ho.
    + by rewrite enter_unregistered.
  - by apply leave_observed.
  - pose proof (leave_observed m self Ho) as H.
    unfold maybe_leave, try_except_ValueError.
    destruct (leave m self) as [[[]|[msg|k]] self']; exact H.
  - unfold leave_current_mode, leave_None. unfold_M.
    destruct (mode self) as [m|]; [|exact Ho].
    case_bool_decide; [exact Ho|]. by apply leave_observed.
  - unfold on_config_changed. unfold_M. by case_bool_decide.
  - destruct (eventFilter_fields obj evt self) as (_ & _ & -> & _).
    rewrite (eventFilter_emits_key_pressed_aux _ _ _ Hr).
    destruct (_ && _); [|exact Ho]. by rewrite observed_stack_snoc.
Qed.

(** A slot that follows the [entered] and [left] signals from the start
    knows the mode stack: replaying the emitted signals gives the stack of
    every manager reached from [ModeManager()]. *)
Theorem signals_determine_stack self :
  reachable self → observed_stack (emitted self) = _mode_stack self.
Proof.
  induction 1 as [config|op self Hr IH]; [reflexivity|].
  by apply step_observed.
Qed.

Lemma signals_determine_stack_witness :
  observed_stack (emitted hint_twice) = _mode_stack hint_twice.
Proof. apply (signals_determine_stack hint_twice). apply after_reachable. Defined.

(** ** What is registered stays registered *)

Lemma step_handlers_passthrough op self :
  (∀ m, is_Some (_handlers self !! m) → is_Some (_handlers (step op self) !! m))
  ∧ (∀ m, m ∈ passthrough self → m ∈ passthrough (step op self))
  ∧ (∀ m, m ∈ passthrough (step op self) →
       m ∈ passthrough self ∨ is_Some (_handlers (step op self) !! m)).
Proof.
  destruct op as [m' h p|m'|m'|m'| |c s o|obj evt]; simpl.
  - destruct (register_fields m' h p self) as (-> & -> & _).
    split; [|split].
    + intros m Hm. destruct (decide (m' = m)) as [->|Hne].
      * rewrite lookup_insert_eq. eauto.
      * by rewrite lookup_insert_ne.
    + intros m Hm. destruct p; [|done]. apply elem_of_app. by left.
    + intros m Hm. destruct p; [|by left].
      apply elem_of_app in Hm as [Hm|Hm%list_elem_of_singleton]; [by left|].
      subst m. right. rewrite lookup_insert_eq. eauto.
  - unfold enter. unfold_M. destruct (_handlers self !! m'); [|by auto].
    case_bool_decide; simpl; auto.
  - unfold leave. unfold_M.
    destruct (list_remove m' (_mode_stack self)); simpl; auto.
  - unfold maybe_leave, try_except_ValueError, leave. unfold_M.
    destruct (list_remove m' (_mode_stack self)); simpl; auto.
  - unfold leave_current_mode, leave_None, leave. unfold_M.
    destruct (mode self) as [m'|]; [|by auto].
    case_bool_decide; [by auto|].
    destruct (list_remove m' (_mode_stack self)); simpl; auto.
  - unfold on_config_changed. unfold_M. case_bool_decide; simpl; auto.
  - destruct (eventFilter_fields obj evt self) as (-> & -> & _). auto.
Qed.

(** No call on the manager unregisters a mode or takes it out of the
    passthrough list: both only ever grow. *)
Theorem registrations_only_grow op self m :
  (is_Some (_handlers self !! m) → is_Some (_handlers (step op self) !! m))
  ∧ (m ∈ passthrough self → m ∈ passthrough (step op self)).
Proof.
  destruct (step_handlers_passthrough op self) as (H1 & H2 & _). split; auto.
Qed.

Lemma registrations_only_grow_witness :
  is_Some (_handlers (step (OpRegister "insert" None false)
                        (insert_with (always true))) !! "insert")
  ∧ "insert" ∈ passthrough (step (OpRegister "insert" None false)
                              (insert_with (always true))).
Proof.
  destruct (registrations_only_grow (OpRegister "insert" None false)
              (insert_with (always true)) "insert") as [H1 H2].
  split.
  - apply H1. vm_compute. eauto.
  - apply H2. vm_compute. apply list_elem_of_here.
Defined.

(** In every manager reached from [ModeManager()], each mode of the
    passthrough list is registered. *)
Theorem passthrough_modes_registered self m :
  reachable self → m ∈ passthrough self → is_Some (_handlers self !! m).
Proof.
  intros Hr. revert m. induction Hr as [config|op self Hr IH]; intros m Hm.
  - simpl in Hm. by apply elem_of_nil in Hm.
  - destruct (step_handlers_passthrough op self) as (H1 & _ & H3).
    destruct (H3 m Hm) as [Hp|Hh]; [|exact Hh]. by apply H1, IH.
Qed.

Lemma passthrough_modes_registered_witness :
  is_Some (_handlers (insert_with (always true)) !! "insert").
Proof.
  apply (passthrough_modes_registered (insert_with (always true)) "insert").
  - apply after_reachable.
  - vm_compute. apply list_elem_of_here.
Defined.

(** ** The forward_unbound_keys setting *)

(** [on_config_changed] reads the setting again only for the option
    general/forward_unbound_keys, and any other change leaves the manager as
    it is.  After a change of that option, a press the handler of the current
    mode does not handle, in a mode that is not passthrough, is forwarded
    exactly when the new value of the setting is true. *)
Theorem on_config_changed_takes_effect self config section option cur handler evt :
  let r := on_config_changed config section option self in
  r.1 = Return tt
  ∧ ((section, option) ≠ ("general", "forward_unbound_keys") → r.2 = self)
  ∧ ((section, option) = ("general", "forward_unbound_keys") →
     mode self = Some cur → _handlers self !! cur = Some handler →
     cur ∉ passthrough self → evt_type evt = KeyPress →
     handled_by handler evt = false →
     (eventFilter QWindow evt r.2).1
       = Return (negb (config "general" "forward_unbound_keys"))).
Proof.
  intros r. subst r. unfold on_config_changed. unfold_M.
  case_bool_decide as Hso; simpl.
  - split; [done|]. split; [done|]. intros _ Hm Hh Hp Ht Hu.
    rewrite (eventFilter_press evt _ cur handler); [|done..].
    simpl. by rewrite Hu, bool_decide_false.
  - split; [done|]. split; [done|]. done.
Qed.

Lemma on_config_changed_takes_effect_witness :
  on_config_changed no_forward "general" "ignore-case" normal_unbound
    = (Return tt, normal_unbound)
  ∧ (eventFilter QWindow (press 1)
       (on_config_changed no_forward "general" "forward_unbound_keys"
          normal_unbound).2).1
    = Return true.
Proof.
  split.
  - pose proof (on_config_changed_takes_effect normal_unbound no_forward
      "general" "ignore-case" "normal" None (press 1)) as H.
    cbv zeta in H. destruct H as (H1 & H2 & _).
    rewrite (surjective_pairing (on_config_changed _ _ _ _)).
    rewrite H1, H2; [reflexivity | discriminate].
  - pose proof (on_config_changed_takes_effect normal_unbound no_forward
      "general" "forward_unbound_keys" "normal" (Some (always false)) (press 1)) as H.
    cbv zeta in H. destruct H as (_ & _ & H). rewrite H; try reflexivity.
    vm_compute. intros H'. inversion H'.
Defined.

(** ** Presses and releases across other calls *)

(** The filter changes the pending state of no event but the one it is
    given. *)
Theorem eventFilter_keeps_other_pending self obj evt id :
  id ≠ evt_id evt →
  id ∈ _releaseevents_to_pass (eventFilter obj evt self).2
  ↔ id ∈ _releaseevents_to_pass self.
Proof.
  intros Hne. destruct (dispatched obj evt self) eqn:Hd.
  2:{ by rewrite (eventFilter_not_dispatched _ _ _ Hd). }
  apply dispatched_true in Hd as ([cur Hm] & Hk & ->).
  destruct (_handlers self !! cur) as [handler|] eqn:Hh.
  2:{ by rewrite (eventFilter_unregistered _ _ _ Hm Hh Hk). }
  destruct (evt_type evt) eqn:Ht; try discriminate.
  - rewrite (eventFilter_press _ _ _ _ Hm Hh Ht). cbn zeta.
    destruct (_ || _); simpl; [done|].
    rewrite elem_of_app, list_elem_of_singleton. tauto.
  - rewrite (eventFilter_release _ _ _ _ Hm Hh Ht).
    destruct (bool_decide _); simpl; [|done].
    rewrite list_elem_of_filter. tauto.
Qed.

Lemma eventFilter_keeps_other_pending_witness :
  1 ∈ _releaseevents_to_pass
        (eventFilter QWindow (release 2) (after do_forward key_held)).2
  ↔ 1 ∈ _releaseevents_to_pass (after do_forward key_held).
Proof.
  apply (eventFilter_keeps_other_pending (after do_forward key_held) QWindow
           (release 2) 1).
  discriminate.
Defined.

Lemma run_pending_no_events ops self hist :
  forallb (λ op, negb (is_event_op op)) ops = true →
  _releaseevents_to_pass (run ops self hist).1 = _releaseevents_to_pass self.
Proof.
  revert self hist. induction ops as [|op ops IH]; intros self hist Hops.
  - reflexivity.
  - simpl in Hops. apply andb_true_iff in Hops as [Hop Hops].
    rewrite run_cons, IH by done.
    change (run [op] self hist).1 with (step op self).
    apply step_pending_not_event. intros obj evt ->. discriminate.
Qed.

(** A press and its release are answered alike whatever happens to the modes
    in between: after a dispatched press, [register], [enter], [leave],
    [maybe_leave], [leave_current_mode] and [on_config_changed] in any number
    and order do not change the answer to the release, which is forwarded
    when the press was, and consumed when the press was and the event was not
    pending before. *)
Theorem release_follows_press_across_mode_changes self p r ops :
  reachable self → dispatched QWindow p self = true →
  evt_type p = KeyPress → evt_type r = KeyRelease → evt_id r = evt_id p →
  evt_id p ∉ _releaseevents_to_pass self →
  forallb (λ op, negb (is_event_op op)) ops = true →
  let self' := (run ops (eventFilter QWindow p self).2 []).1 in
  is_Some (mode self') →
  (eventFilter QWindow r self').1 = (eventFilter QWindow p self).1.
Proof.
  intros Hr Hd Hp Hrel Hid Hnew Hops self' Hm'.
  assert (reachable self') as Hr'.
  { apply run_reachable. by apply (reachable_step (OpEventFilter QWindow p)). }
  assert (dispatched QWindow r self' = true) as Hd'.
  { apply dispatched_true. by rewrite Hrel. }
  destruct (release_decision QWindow r self'
              (reachable_stack_registered _ Hr') Hd' Hrel) as [-> _].
  subst self'. rewrite run_pending_no_events by done.
  apply dispatched_true in Hd as ([cur Hm] & _ & _).
  destruct (reachable_current_handler _ _ Hr Hm) as [handler Hh].
  rewrite (eventFilter_press _ _ _ _ Hm Hh Hp). cbn zeta.
  destruct (_ || _); simpl.
  - rewrite Hid. by rewrite bool_decide_false.
  - rewrite bool_decide_true; [done|].
    rewrite elem_of_app, list_elem_of_singleton. auto.
Qed.

Lemma release_follows_press_across_mode_changes_witness :
  (eventFilter QWindow (release 5)
     (run [OpLeave "insert"]
        (eventFilter QWindow (press 5) (insert_with (always false))).2 []).1).1
  = (eventFilter QWindow (press 5) (insert_with (always false))).1.
Proof.
  apply (release_follows_press_across_mode_changes
           (insert_with (always false)) (press 5) (release 5) [OpLeave "insert"]).
  - apply after_reachable.
  - reflexivity.
  - reflexivity.
  - reflexivity.
  - reflexivity.
  - vm_compute. apply not_elem_of_nil.
  - reflexivity.
  - vm_compute. eauto.
Defined.

(** ** The application's modes *)



(** ** Entering twice, and the base mode *)

(** [enter] is idempotent: a second [enter] of the same mode right after the
    first changes nothing more, whether the first one succeeded or raised. *)
Theorem enter_idempotent self m :
  (enter m (enter m self).2).2 = (enter m self).2
  ∧ ((enter m self).1 = Return tt → (enter m (enter m self).2).1 = Return tt).
Proof.
  destruct (_handlers self !! m) as [h|] eqn:Hh.
  - destruct (decide (mode self = Some m)) as [Hm|Hm].
    + rewrite (enter_top m self) by eauto. cbn [fst snd].
      by rewrite (enter_top m self) by eauto.
    + rewrite (enter_push m self) by eauto. cbn [fst snd].
      rewrite enter_top; [done | simpl; eauto |].
      unfold mode. simpl. apply last_snoc.
  - rewrite (enter_unregistered _ _ Hh). cbn [fst snd].
    rewrite (enter_unregistered _ _ Hh). split; [done | discriminate].
Qed.

Lemma enter_idempotent_witness :
  (enter "hint" (enter "hint" normal_and_hint).2).2 = (enter "hint" normal_and_hint).2
  ∧ (enter "hint" (enter "hint" normal_and_hint).2).1 = Return tt.
Proof.
  destruct (enter_idempotent normal_and_hint "hint") as [H1 H2].
  split; [exact H1|]. apply H2. reflexivity.
Defined.

Lemma list_remove_keeps_others x y l r :
  list_remove x l = Some r → y ≠ x → y ∈ l → y ∈ r.
Proof.
  intros (l1 & l2 & -> & _ & ->)%list_remove_Some Hne.
  rewrite !elem_of_app, elem_of_cons. intros [?|[?|?]]; auto. done.
Qed.

Lemma leave_keeps_others m y self :
  y ≠ m → y ∈ _mode_stack self → y ∈ _mode_stack (leave m self).2.
Proof.
  intros Hne Hy. destruct (list_remove m (_mode_stack self)) as [st|] eqn:E.
  - rewrite (leave_present _ _ _ E). simpl.
    by apply (list_remove_keeps_others m y (_mode_stack self)).
  - apply list_remove_None in E. by rewrite (leave_absent _ _ E).
Qed.

(** Normal mode is the durable base: once "normal" is on the stack, it stays
    there, and so some mode stays active, under every call other than
    [leave("normal")] and [maybe_leave("normal")]; [leave_current_mode] in
    particular never removes it. *)
Theorem normal_mode_stays op self :
  "normal" ∈ _mode_stack self →
  op ≠ OpLeave "normal" → op ≠ OpMaybeLeave "normal" →
  "normal" ∈ _mode_stack (step op self) ∧ is_Some (mode (step op self)).
Proof.
  intros Hn Hop1 Hop2.
  assert ("normal" ∈ _mode_stack (step op self)) as H.
  { destruct op as [m h p|m|m|m| |c s o|obj evt]; simpl.
    - rewrite register_eq. by destruct p.
    - unfold enter. unfold_M. destruct (_handlers self !! m); [|done].
      case_bool_decide; [done|]. simpl. apply elem_of_app. by left.
    - apply leave_keeps_others; [|done]. intros <-. done.
    - assert ("normal" ∈ _mode_stack (leave m self).2) as H.
      { apply leave_keeps_others; [|done]. intros <-. done. }
      unfold maybe_leave, try_except_ValueError.
      destruct (leave m self) as [[[]|[msg|k]] self']; exact H.
    - unfold leave_current_mode, leave_None. unfold_M.
      destruct (mode self) as [m|]; [|done].
      case_bool_decide as Hm; [done|]. by apply leave_keeps_others.
    - unfold on_config_changed. unfold_M. by case_bool_decide.
    - by destruct (eventFilter_fields obj evt self) as (_ & _ & -> & _). }
  split; [exact H|]. unfold mode.
  destruct (_mode_stack (step op self)) as [|x l] using rev_ind.
  - by apply elem_of_nil in H.
  - rewrite last_snoc. eauto.
Qed.

Lemma normal_mode_stays_witness :
  "normal" ∈ _mode_stack (step OpLeaveCurrentMode hinting)
  ∧ is_Some (mode (step OpLeaveCurrentMode hinting)).
Proof.
  apply (normal_mode_stays OpLeaveCurrentMode hinting).
  - vm_compute. apply list_elem_of_here.
  - discriminate.
  - discriminate.
Defined.

(** * utils *)

(** ** [elide] *)

Lemma elide_Return text length :
  (1 ≤ length)%Z →
  elide text length =
    Return (if bool_decide (Z.of_nat (List.length text) ≤ length)%Z then text
            else take (Z.to_nat (length - 1)) text ++ [ellipsis]).
Proof.
  intros H. unfold elide. rewrite bool_decide_false by lia.
  by case_bool_decide.
Qed.

Lemma elide_length text length r :
  elide text length = Return r →
  Z.of_nat (List.length r) = Z.min (Z.of_nat (List.length text)) length.
Proof.
  unfold elide. case_bool_decide; [discriminate|].
  case_bool_decide; intros [= <-]; [lia|].
  rewrite length_app, length_take. simpl. lia.
Qed.

(** [elide] raises [ValueError] exactly when [length] is below 1; otherwise
    the text it returns has [min(len(text), length)] characters, so never
    more than [length]. *)
Theorem elide_bound text length :
  ((length < 1)%Z → elide text length = Raise (ValueError "length must be >= 1!"))
  ∧ ((1 ≤ length)%Z →
     ∃ r, elide text length = Return r
       ∧ Z.of_nat (List.length r) = Z.min (Z.of_nat (List.length text)) length).
Proof.
  split.
  - intros H. unfold elide. by rewrite bool_decide_true.
  - intros H. rewrite (elide_Return _ _ H). eexists. split; [done|].
    apply elide_length. by rewrite (elide_Return _ _ H).
Qed.

Lemma elide_bound_witness :
  elide [104; 105]%N 0 = Raise (ValueError "length must be >= 1!")
  ∧ ∃ r, elide [104; 101; 108; 108; 111]%N 3 = Return r
      ∧ Z.of_nat (List.length r)
        = Z.min (Z.of_nat (List.length [104; 101; 108; 108; 111]%N)) 3.
Proof.
  split.
  - apply (proj1 (elide_bound [104; 105]%N 0)). lia.
  - apply (proj2 (elide_bound [104; 101; 108; 108; 111]%N 3)). lia.
Defined.

(** Text that fits is returned as it is; longer text keeps its first
    [length - 1] characters and ends in the ellipsis; and eliding the result
    again to the same length changes nothing. *)
Theorem elide_shape text length r :
  elide text length = Return r →
  ((Z.of_nat (List.length text) ≤ length)%Z → r = text)
  ∧ ((length < Z.of_nat (List.length text))%Z →
     r = take (Z.to_nat (length - 1)) text ++ [ellipsis])
  ∧ elide r length = Return r.
Proof.
  intros E. pose proof (elide_length _ _ _ E) as Hlen.
  assert (1 ≤ length)%Z as H1.
  { unfold elide in E. by case_bool_decide; [discriminate | lia]. }
  rewrite (elide_Return _ _ H1) in E. injection E as E.
  split; [|split].
  - intros H. by rewrite bool_decide_true in E.
  - intros H. by rewrite bool_decide_false in E by lia.
  - rewrite (elide_Return _ _ H1). by rewrite bool_decide_true by lia.
Qed.

Lemma elide_shape_witness :
  ((Z.of_nat (List.length [104; 101; 108; 108; 111]%N) ≤ 3)%Z →
     [104%N; 101%N; ellipsis] = [104; 101; 108; 108; 111]%N)
  ∧ ((3 < Z.of_nat (List.length [104; 101; 108; 108; 111]%N))%Z →
     [104%N; 101%N; ellipsis]
     = take (Z.to_nat (3 - 1)) [104; 101; 108; 108; 111]%N ++ [ellipsis])
  ∧ elide [104%N; 101%N; ellipsis] 3 = Return [104%N; 101%N; ellipsis].
Proof.
  apply (elide_shape [104; 101; 108; 108; 111]%N 3 [104%N; 101%N; ellipsis]).
  reflexivity.
Defined.

(** ** [compact_text] *)

Lemma splitlines_from_no_linebreak n : ∀ s line,
  List.length s ≤ n → Forall (λ c, is_linebreak c = false) line →
  Forall (Forall (λ c, is_linebreak c = false)) (splitlines_from line s).
Proof.
  induction n as [|n IH]; intros s line Hn Hl.
  - destruct s; [|simpl in Hn; lia]. simpl.
    destruct line; constructor; [by apply Forall_reverse|constructor].
  - destruct s as [|c s']; simpl.
    + destruct line; constructor; [by apply Forall_reverse|constructor].
    + simpl in Hn. destruct (is_linebreak c) eqn:Hc.
      * constructor; [by apply Forall_reverse|].
        destruct s' as [|c' s'']; [constructor|].
        destruct (_ && _); apply IH; simpl in *; try lia; constructor.
      * apply IH; [lia | by constructor].
Qed.

Lemma lstrip_suffix isspace s :
  ∃ p, s = p ++ lstrip isspace s ∧ Forall (λ c, isspace c = true) p.
Proof.
  induction s as [|c s IH]; simpl.
  - by exists [].
  - destruct (isspace c) eqn:Hc.
    + destruct IH as (p & Hp & HF). exists (c :: p). split; [by rewrite Hp at 1|].
      by constructor.
    + by exists [].
Qed.

Lemma lstrip_head isspace s c r :
  lstrip isspace s = c :: r → isspace c = false.
Proof.
  induction s as [|c' s IH]; simpl; [discriminate|].
  destruct (isspace c') eqn:Hc; [exact IH|]. by intros [= <- _].
Qed.

Lemma lstrip_Forall (P : N → Prop) isspace s :
  Forall P s → Forall P (lstrip isspace s).
Proof.
  intros H. destruct (lstrip_suffix isspace s) as (p & Hp & _).
  rewrite Hp in H. by apply Forall_app in H as [_ ?].
Qed.

Lemma strip_Forall (P : N → Prop) isspace s :
  Forall P s → Forall P (strip isspace s).
Proof.
  intros H. unfold strip. rewrite Forall_reverse. apply lstrip_Forall.
  rewrite Forall_reverse. by apply lstrip_Forall.
Qed.

Lemma strip_no_outer_space isspace s : no_outer_space isspace (strip isspace s).
Proof.
  unfold strip, no_outer_space.
  set (t := lstrip isspace s).
  destruct (lstrip_suffix isspace (reverse t)) as (p & Hp & _).
  set (u := lstrip isspace (reverse t)) in *. split.
  - intros c Hc. rewrite head_reverse in Hc.
    destruct u as [|c0 u0] eqn:Hu; [done|].
    assert (last (reverse t) = Some c) as Hl.
    { rewrite Hp. rewrite last_app. by rewrite Hc. }
    rewrite last_reverse in Hl. destruct t as [|c1 t1] eqn:Ht; [done|].
    simpl in Hl. injection Hl as ->. by apply (lstrip_head isspace s c t1).
  - intros c Hc. rewrite last_reverse in Hc.
    destruct u as [|c0 u0] eqn:Hu; [done|]. simpl in Hc. injection Hc as ->.
    by apply (lstrip_head isspace (reverse t) c u0).
Qed.

Lemma no_outer_space_app isspace s1 s2 :
  no_outer_space isspace s1 → no_outer_space isspace s2 →
  no_outer_space isspace (s1 ++ s2).
Proof.
  intros [H1 H1'] [H2 H2']. split; intros c Hc.
  - destruct s1 as [|c1 s1]; [by apply H2|]. by apply H1.
  - rewrite last_app in Hc. destruct (last s2) as [c2|] eqn:E.
    + injection Hc as ->. by apply H2'.
    + by apply H1'.
Qed.

Lemma no_outer_space_concat isspace l :
  Forall (no_outer_space isspace) l → no_outer_space isspace (concat l).
Proof.
  induction 1 as [|s l Hs _ IH]; simpl.
  - split; intros c; discriminate.
  - by apply no_outer_space_app.
Qed.

Lemma splitlines_one_line s line :
  Forall (λ c, is_linebreak c = false) s →
  splitlines_from line s =
    match reverse line ++ s with [] => [] | l => [l] end.
Proof.
  revert line. induction s as [|c s IH]; intros line Hs; simpl.
  - rewrite app_nil_r. destruct line as [|c l]; [done|].
    rewrite reverse_cons. by destruct (reverse l).
  - apply Forall_cons in Hs as [Hc Hs]. rewrite Hc, (IH _ Hs).
    by rewrite reverse_cons, <- app_assoc.
Qed.

Example splitlines_examples :
  splitlines [97; 13; 10; 98; 10]%N = [[97]; [98]]%N
  ∧ splitlines [10]%N = [[]]
  ∧ splitlines [] = []
  ∧ splitlines [97; 10; 10; 98]%N = [[97]; []; [98]]%N
  ∧ splitlines [97; 13]%N = [[97]]%N
  ∧ splitlines [97; 10; 13; 98]%N = [[97]; []; [98]]%N.
Proof. repeat split. Qed.

Example compact_text_example :
  compact_text ascii_isspace
    [32; 102; 111; 111; 32; 10; 9; 98; 97; 114; 13; 10; 32; 98; 97; 122]%N None
  = Return [102; 111; 111; 98; 97; 114; 98; 97; 122]%N.
Proof. reflexivity. Qed.

Lemma compact_text_out_no_linebreak isspace text :
  Forall (λ c, is_linebreak c = false)
    (concat (map (strip isspace) (splitlines text))).
Proof.
  apply Forall_concat, Forall_fmap.
  eapply Forall_impl; [apply (splitlines_from_no_linebreak (List.length text));
                       [done | constructor]|].
  intros line Hl. by apply strip_Forall.
Qed.

(** Whatever [compact_text] returns holds no line break, and has at most
    [elidelength] characters when that is given. *)
Theorem compact_text_no_linebreak isspace text elidelength r :
  compact_text isspace text elidelength = Return r →
  Forall (λ c, is_linebreak c = false) r
  ∧ ∀ length, elidelength = Some length → (Z.of_nat (List.length r) ≤ length)%Z.
Proof.
  unfold compact_text. intros E.
  pose proof (compact_text_out_no_linebreak isspace text) as Hout.
  destruct elidelength as [length|].
  - split.
    + revert E. unfold elide. case_bool_decide; [discriminate|].
      case_bool_decide; intros [= <-]; [done|].
      apply Forall_app. split; [by apply Forall_take|].
      by repeat constructor.
    + intros ? [= <-]. apply elide_length in E. lia.
  - injection E as <-. split; [done|]. discriminate.
Qed.

Lemma compact_text_no_linebreak_witness :
  Forall (λ c, is_linebreak c = false) [102%N; ellipsis]
  ∧ ∀ length, Some 2%Z = Some length →
      (Z.of_nat (List.length [102%N; ellipsis]) ≤ length)%Z.
Proof.
  apply (compact_text_no_linebreak ascii_isspace
           [32; 102; 111; 111; 32; 10; 9; 98; 97; 114]%N (Some 2%Z)).
  reflexivity.
Defined.

(** Without [elidelength], [compact_text] never raises, and its result
    neither begins nor ends with white space. *)
Theorem compact_text_stripped isspace text :
  ∃ r, compact_text isspace text None = Return r ∧ no_outer_space isspace r.
Proof.
  eexists. split; [reflexivity|].
  apply no_outer_space_concat, Forall_fmap, Forall_forall.
  intros line _. apply strip_no_outer_space.
Qed.

(** A text without line breaks is just stripped. *)
Theorem compact_text_single_line isspace text :
  Forall (λ c, is_linebreak c = false) text →
  compact_text isspace text None = Return (strip isspace text).
Proof.
  intros H. unfold compact_text, splitlines.
  rewrite (splitlines_one_line _ _ H). simpl.
  destruct text; simpl; [done|]. by rewrite app_nil_r.
Qed.

Lemma compact_text_single_line_witness :
  compact_text ascii_isspace [32; 102; 111; 111; 32]%N None
  = Return (strip ascii_isspace [32; 102; 111; 111; 32]%N).
Proof.
  apply (compact_text_single_line ascii_isspace [32; 102; 111; 111; 32]%N).
  repeat constructor.
Defined.

(** * Application: quitting *)

Lemma quit_status_fold senders : ∀ (st : gmap string bool) k,
  fold_left (λ st sender, (_maybe_quit sender st).1) senders st !! k
  = if bool_decide (k ∈ senders) then Some true else st !! k.
Proof.
  induction senders as [|s senders IH]; intros st k; cbn [fold_left].
  - by rewrite bool_decide_false by apply not_elem_of_nil.
  - rewrite IH. unfold _maybe_quit. cbn [fst]. destruct (decide (k ∈ senders)) as [Hin|Hin].
    + rewrite !bool_decide_true; [done| by right | done].
    + rewrite (bool_decide_false (k ∈ senders)) by done.
      destruct (decide (s = k)) as [->|Hne].
      * rewrite lookup_insert_eq. rewrite bool_decide_true; [done | by left].
      * rewrite lookup_insert_ne by done. rewrite bool_decide_false; [done|].
        intros [->|?]%elem_of_cons; done.
Qed.

(** Starting from the status [Application.__init__] sets, a call of
    [_maybe_quit] quits exactly when tabs, networkmanager and main have all
    reported, this call included, in whatever order and however often. *)
Theorem maybe_quit_when_all_reported senders sender :
  (_maybe_quit sender (quit_status_after senders)).2 = true
  ↔ ∀ k, k ∈ ["tabs"; "networkmanager"; "main"] → k ∈ senders ++ [sender].
Proof.
  unfold _maybe_quit, quit_status_after. cbn [snd].
  rewrite bool_decide_eq_true. split.
  - intros Hall k Hk.
    destruct (decide (k ∈ senders ++ [sender])) as [|Hn]; [done|exfalso].
    apply not_elem_of_app in Hn as [Hn1 Hn2].
    apply not_elem_of_cons in Hn2 as [Hn2 _].
    assert (<[sender:=true]>
              (fold_left (λ st s, (_maybe_quit s st).1) senders _quit_status_init)
            !! k = Some false) as Hl.
    { rewrite lookup_insert_ne by done. rewrite quit_status_fold.
      rewrite bool_decide_false by done.
      repeat (apply elem_of_cons in Hk as [->|Hk]); [done..|].
      by apply elem_of_nil in Hk. }
    by apply Hall in Hl.
  - intros Hk k v Hl.
    destruct (decide (sender = k)) as [->|Hne].
    { rewrite lookup_insert_eq in Hl. congruence. }
    rewrite lookup_insert_ne in Hl by done. rewrite quit_status_fold in Hl.
    destruct (decide (k ∈ senders)) as [Hin|Hin].
    { rewrite bool_decide_true in Hl by done. congruence. }
    rewrite bool_decide_false in Hl by done.
    assert (k ∉ senders ++ [sender]) as Hn.
    { rewrite not_elem_of_app, not_elem_of_cons. split; [done|].
      split; [done | apply not_elem_of_nil]. }
    unfold _quit_status_init in Hl.
    apply lookup_insert_Some in Hl as [[<- <-]|[_ Hl]]; [done|].
    apply lookup_insert_Some in Hl as [[<- <-]|[_ Hl]].
    { destruct Hn. apply Hk. set_solver. }
    apply lookup_insert_Some in Hl as [[<- <-]|[_ Hl]].
    { destruct Hn. apply Hk. set_solver. }
    apply lookup_insert_Some in Hl as [[<- <-]|[_ Hl]].
    { destruct Hn. apply Hk. set_solver. }
    by rewrite lookup_empty in Hl.
Qed.

Example maybe_quit_order :
  (_maybe_quit "tabs" (quit_status_after ["main"; "networkmanager"])).2 = true
  ∧ (_maybe_quit "main" (quit_status_after ["main"; "networkmanager"])).2 = false.
Proof. split; vm_compute; reflexivity. Qed.

Lemma maybe_quit_when_all_reported_witness :
  (_maybe_quit "tabs" (quit_status_after ["main"; "networkmanager"; "main"])).2
  = true.
Proof.
  apply (maybe_quit_when_all_reported ["main"; "networkmanager"; "main"] "tabs").
  intros k Hk.
  repeat (apply elem_of_cons in Hk as [->|Hk]); [..|by apply elem_of_nil in Hk];
    [ do 3 apply list_elem_of_further; apply list_elem_of_here
    | apply list_elem_of_further, list_elem_of_here
    | apply list_elem_of_here ].
Defined.

(** * utils: [format_seconds] *)

Example format_seconds_examples :
  format_seconds 0 = "0:00" ∧ format_seconds 59 = "0:59"
  ∧ format_seconds 61 = "1:01" ∧ format_seconds 3600 = "1:00:00"
  ∧ format_seconds (-3725) = "-1:02:05" ∧ format_seconds 360000 = "100:00:00".
Proof. repeat split; vm_compute; reflexivity. Qed.

(** A negative count is written as the minus sign followed by what is
    written for its absolute value. *)
Theorem format_seconds_negative total_seconds :
  (total_seconds < 0)%Z →
  format_seconds total_seconds = "-" +:+ format_seconds (- total_seconds).
Proof.
  intros H. unfold format_seconds.
  rewrite Z.abs_opp. rewrite bool_decide_true by done.
  by rewrite (bool_decide_false (- total_seconds < 0)%Z) by lia.
Qed.

Lemma format_seconds_negative_witness :
  format_seconds (-3725) = "-" +:+ format_seconds (- -3725).
Proof. apply (format_seconds_negative (-3725)). lia. Defined.

Lemma format_02_length n :
  (0 ≤ n < 100)%Z → String.length (format_02 n) = 2.
Proof.
  intros H. assert (∃ k, k < 100 ∧ n = Z.of_nat k) as (k & Hk & ->).
  { exists (Z.to_nat n). lia. }
  clear H. do 100 (destruct k as [|k]; [vm_compute; reflexivity|]). lia.
Qed.

(** For [h] hours, [m] minutes and [s] seconds the result is [M:SS] without
    hours and [H:MM:SS] with them, the minutes behind hours and the seconds
    always with two digits. *)
Theorem format_seconds_shape h m s :
  (0 ≤ h)%Z → (0 ≤ m < 60)%Z → (0 ≤ s < 60)%Z →
  format_seconds (3600 * h + 60 * m + s) =
    (if bool_decide (h = 0)%Z then pretty m +:+ ":" +:+ format_02 s
     else pretty h +:+ ":" +:+ format_02 m +:+ ":" +:+ format_02 s)
  ∧ String.length (format_02 m) = 2 ∧ String.length (format_02 s) = 2.
Proof.
  intros Hh Hm Hs. split; [|split; apply format_02_length; lia].
  unfold format_seconds. rewrite bool_decide_false by lia.
  rewrite Z.abs_eq by lia.
  assert ((3600 * h + 60 * m + s) `div` 3600 = h)%Z as ->.
  { symmetry. apply (Z.div_unique _ _ _ (60 * m + s)); lia. }
  assert ((3600 * h + 60 * m + s) `mod` 3600 = 60 * m + s)%Z as ->.
  { symmetry. apply (Z.mod_unique _ _ h); lia. }
  assert ((60 * m + s) `div` 60 = m)%Z as ->.
  { symmetry. apply (Z.div_unique _ _ _ s); lia. }
  assert ((60 * m + s) `mod` 60 = s)%Z as ->.
  { symmetry. apply (Z.mod_unique _ _ m); lia. }
  destruct (decide (h = 0%Z)) as [->|Hne].
  - rewrite bool_decide_false by lia. by rewrite bool_decide_true.
  - rewrite bool_decide_true by done. by rewrite bool_decide_false.
Qed.

Lemma format_seconds_shape_witness :
  format_seconds (3600 * 1 + 60 * 2 + 5) =
    (if bool_decide (1 = 0)%Z then pretty 2%Z +:+ ":" +:+ format_02 5
     else pretty 1%Z +:+ ":" +:+ format_02 2 +:+ ":" +:+ format_02 5)
  ∧ String.length (format_02 2) = 2 ∧ String.length (format_02 5) = 2.
Proof. apply (format_seconds_shape 1 2 5); lia. Defined.

(** ** [format_seconds] is injective *)

Lemma str_cons_app c (s t : string) : String c s +:+ t = String c (s +:+ t).
Proof. reflexivity. Qed.

Lemma str_nil_app (t : string) : "" +:+ t = t.
Proof. reflexivity. Qed.

Lemma str_length_app (s t : string) :
  String.length (s +:+ t) = String.length s + String.length t.
Proof.
  induction s as [|c s IH]; [done|].
  rewrite str_cons_app. simpl. by rewrite IH.
Qed.

Lemma str_app_assoc (s t u : string) : (s +:+ t) +:+ u = s +:+ t +:+ u.
Proof.
  induction s as [|c s IH]; [done|]. rewrite !str_cons_app. by rewrite IH.
Qed.

Lemma str_app_inj (s1 s2 t1 t2 : string) :
  s1 +:+ t1 = s2 +:+ t2 → String.length t1 = String.length t2 →
  s1 = s2 ∧ t1 = t2.
Proof.
  revert s2. induction s1 as [|c s1 IH]; intros [|c2 s2] H Hl;
    rewrite ?str_cons_app, ?str_nil_app in H.
  - done.
  - subst t1. simpl in Hl. rewrite str_length_app in Hl. lia.
  - subst t2. simpl in Hl. rewrite str_length_app in Hl. lia.
  - injection H as -> H. by destruct (IH _ H Hl) as [-> ->].
Qed.

Lemma pretty_N_go_length x s :
  String.length s ≤ String.length (pretty_N_go x s).
Proof.
  revert s. induction (N.lt_wf_0 x) as [x _ IH]; intros s.
  assert (x = 0 ∨ 0 < x)%N as [->|Hx] by lia; [by rewrite pretty_N_go_0|].
  rewrite pretty_N_go_step by done.
  etrans; [|apply IH; by apply N.div_lt]. simpl. lia.
Qed.

(** The decimal form of a number that is not negative begins with a digit. *)
Lemma pretty_nonneg_head (x : Z) :
  (0 ≤ x)%Z → ∃ c r, pretty x = String c r ∧ c ≠ "-"%char.
Proof.
  intros Hx. destruct x as [|p|p]; [by exists "0"%char, "" | | lia].
  change (pretty (Z.pos p)) with (pretty_N_go (N.pos p) "").
  destruct (pretty_N_go (N.pos p) "") as [|c r] eqn:E.
  - pose proof (pretty_N_go_length (N.pos p / 10)
      (String (pretty_N_char (N.pos p `mod` 10)) "")) as Hl.
    rewrite <- pretty_N_go_step, E in Hl by lia. simpl in Hl. lia.
  - exists c, r. split; [done|]. intros ->.
    by apply (pretty_N_go_ne_dash (N.pos p) "" r).
Qed.

Lemma format_02_inj a b :
  (0 ≤ a < 60)%Z → (0 ≤ b < 60)%Z → format_02 a = format_02 b → a = b.
Proof.
  assert (∀ a b, (0 ≤ a < 10)%Z → (10 ≤ b < 60)%Z →
            "0" +:+ pretty a ≠ pretty b) as Hmix.
  { clear. intros a b _ Hb.
    assert (∃ k, k < 60 ∧ b = Z.of_nat k) as (k & Hk & ->).
    { exists (Z.to_nat b). lia. }
    do 10 (destruct k as [|k]; [lia|]).
    do 50 (destruct k as [|k]; [vm_compute; discriminate|]). lia. }
  intros Ha Hb. unfold format_02.
  case_bool_decide as Ha'; case_bool_decide as Hb'.
  - intros [= H]. by apply (inj pretty).
  - intros H. destruct (Hmix a b); [lia..|done].
  - intros H. destruct (Hmix b a); [lia..|done].
  - apply (inj pretty).
Qed.

Lemma pretty_length_lt_60 m :
  (0 ≤ m < 60)%Z → String.length (pretty m) ≤ 2.
Proof.
  intros Hm. pose proof (format_02_length m) as H. unfold format_02 in H.
  case_bool_decide; [|rewrite H; lia].
  change ("0" +:+ pretty m) with (String "0" (pretty m)) in H.
  simpl in H. lia.
Qed.

Lemma hms_string_inj h1 m1 s1 h2 m2 s2 :
  (0 ≤ h1)%Z → (0 ≤ m1 < 60)%Z → (0 ≤ s1 < 60)%Z →
  (0 ≤ h2)%Z → (0 ≤ m2 < 60)%Z → (0 ≤ s2 < 60)%Z →
  hms_string h1 m1 s1 = hms_string h2 m2 s2 → h1 = h2 ∧ m1 = m2 ∧ s1 = s2.
Proof.
  intros Hh1 Hm1 Hs1 Hh2 Hm2 Hs2.
  assert (∀ m s h' m' s' : Z, (0 ≤ m < 60)%Z → (0 ≤ s < 60)%Z →
            (0 ≤ m' < 60)%Z → (0 ≤ s' < 60)%Z →
            pretty m +:+ ":" +:+ format_02 s
            ≠ pretty h' +:+ ":" +:+ format_02 m' +:+ ":" +:+ format_02 s')
    as Hmix.
  { intros m s h' m' s' Hm Hs Hm' Hs' H.
    change (pretty h' +:+ ":" +:+ format_02 m' +:+ ":" +:+ format_02 s')
      with (pretty h' +:+ (":" +:+ format_02 m') +:+ (":" +:+ format_02 s')) in H.
    rewrite <- (str_app_assoc (pretty h')) in H.
    apply str_app_inj in H as [H _].
    2:{ by rewrite !str_length_app, !format_02_length by lia. }
    pose proof (pretty_length_lt_60 m Hm) as Hl. rewrite H in Hl.
    rewrite !str_length_app, format_02_length in Hl by lia.
    simpl in Hl. lia. }
  unfold hms_string. case_bool_decide as E1; case_bool_decide as E2.
  - intros H. apply str_app_inj in H as [Hm Hs].
    2:{ by rewrite !str_length_app, !format_02_length by lia. }
    apply (inj (String.append ":")) in Hs.
    apply (inj pretty) in Hm. apply format_02_inj in Hs; [|lia..]. lia.
  - intros H. by destruct (Hmix m1 s1 h2 m2 s2).
  - intros H. by destruct (Hmix m2 s2 h1 m1 s1).
  - intros H. apply str_app_inj in H as [Hh H].
    2:{ by rewrite !str_length_app, !format_02_length by lia. }
    apply (inj (String.append ":")) in H.
    apply str_app_inj in H as [Hm Hs].
    2:{ by rewrite !str_length_app, !format_02_length by lia. }
    apply (inj (String.append ":")) in Hs.
    apply (inj pretty) in Hh.
    apply format_02_inj in Hm; [|lia..]. apply format_02_inj in Hs; [|lia..].
    done.
Qed.

Lemma hms_string_no_dash h m s t :
  (0 ≤ h)%Z → (0 ≤ m)%Z → hms_string h m s ≠ "-" +:+ t.
Proof.
  intros Hh Hm. unfold hms_string. case_bool_decide.
  - destruct (pretty_nonneg_head m Hm) as (c & r & -> & Hc).
    rewrite !str_cons_app, str_nil_app. congruence.
  - destruct (pretty_nonneg_head h Hh) as (c & r & -> & Hc).
    rewrite !str_cons_app, str_nil_app. congruence.
Qed.

Lemma format_seconds_hms n :
  (0 ≤ n)%Z →
  format_seconds n = hms_string (n `div` 3600) ((n `mod` 3600) `div` 60)
                       ((n `mod` 3600) `mod` 60)
  ∧ format_seconds (- n) =
      (if bool_decide (n = 0)%Z then "" else "-")
      +:+ hms_string (n `div` 3600) ((n `mod` 3600) `div` 60)
            ((n `mod` 3600) `mod` 60).
Proof.
  intros Hn. unfold format_seconds, hms_string.
  rewrite Z.abs_opp, Z.abs_eq by done.
  rewrite (bool_decide_false (n < 0)%Z) by lia.
  set (h := (n `div` 3600)%Z).
  assert (bool_decide (- n < 0)%Z = negb (bool_decide (n = 0%Z))) as ->.
  { destruct (decide (n = 0%Z)) as [->|Hne].
    - by rewrite bool_decide_false, bool_decide_true.
    - by rewrite bool_decide_true, bool_decide_false by lia. }
  assert (bool_decide (h ≠ 0%Z) = negb (bool_decide (h = 0%Z))) as ->.
  { destruct (decide (h = 0%Z)) as [E|E].
    - by rewrite bool_decide_false, bool_decide_true by (done || lia).
    - by rewrite bool_decide_true, bool_decide_false. }
  destruct (bool_decide (h = 0%Z)), (bool_decide (n = 0%Z)); done.
Qed.

(** Different counts of seconds are written differently. *)
Theorem format_seconds_inj a b :
  format_seconds a = format_seconds b → a = b.
Proof.
  assert (∀ n, (0 ≤ n)%Z →
    (0 ≤ n `div` 3600)%Z ∧ (0 ≤ (n `mod` 3600) `div` 60 < 60)%Z
    ∧ (0 ≤ (n `mod` 3600) `mod` 60 < 60)%Z) as Hrange.
  { intros n Hn. pose proof (Z.mod_pos_bound n 3600).
    pose proof (Z.mod_pos_bound (n `mod` 3600) 60).
    split; [apply Z.div_pos; lia|]. split; [|lia].
    split; [apply Z.div_pos; lia | apply Z.div_lt_upper_bound; lia]. }
  assert (∀ x y, (0 ≤ x)%Z → (0 ≤ y)%Z →
    hms_string (x `div` 3600) ((x `mod` 3600) `div` 60) ((x `mod` 3600) `mod` 60)
    = hms_string (y `div` 3600) ((y `mod` 3600) `div` 60) ((y `mod` 3600) `mod` 60)
    → x = y) as Hinj.
  { intros x y Hx Hy H.
    destruct (Hrange x Hx) as (? & ? & ?). destruct (Hrange y Hy) as (? & ? & ?).
    apply hms_string_inj in H as (Hh & Hm & Hs); [|done..].
    rewrite (Z.div_mod x 3600), (Z.div_mod y 3600) by lia.
    rewrite (Z.div_mod (x `mod` 3600) 60), (Z.div_mod (y `mod` 3600) 60) by lia.
    by rewrite Hh, Hm, Hs. }
  assert (∀ x y, (0 ≤ x)%Z → (0 < y)%Z →
    format_seconds x ≠ format_seconds (- y)) as Hsign.
  { intros x y Hx Hy H.
    rewrite (proj1 (format_seconds_hms x Hx)) in H.
    rewrite (proj2 (format_seconds_hms y (Z.lt_le_incl _ _ Hy))) in H.
    rewrite bool_decide_false in H by lia.
    destruct (Hrange x Hx) as (? & [? _] & _).
    by apply hms_string_no_dash in H. }
  intros H. destruct (Z.le_gt_cases 0 a) as [Ha|Ha];
    destruct (Z.le_gt_cases 0 b) as [Hb|Hb].
  - rewrite (proj1 (format_seconds_hms a Ha)) in H.
    rewrite (proj1 (format_seconds_hms b Hb)) in H. by apply Hinj.
  - destruct (Hsign a (- b)%Z); [lia..|]. by rewrite Z.opp_involutive.
  - destruct (Hsign b (- a)%Z); [lia..|]. by rewrite Z.opp_involutive.
  - rewrite <- (Z.opp_involutive a), <- (Z.opp_involutive b) in H.
    destruct (format_seconds_hms (- a)%Z) as [_ Ea]; [lia|].
    destruct (format_seconds_hms (- b)%Z) as [_ Eb]; [lia|].
    rewrite Ea, Eb in H.
    rewrite !bool_decide_false in H by lia.
    apply (inj (String.append "-")) in H.
    apply Hinj in H; lia.
Qed.

Lemma format_seconds_inj_witness : (3600 * 1 + 60 * 2 + 5)%Z = 3725%Z.
Proof. apply (format_seconds_inj (3600 * 1 + 60 * 2 + 5) 3725). reflexivity. Defined.
